(** * Localizer node: scan-to-map localisation pipeline

    A shallow embedding of [localizer_node.cpp] (class [Localizer]) and the
    properties of its heading search, warm-started tracking, frame
    composition and result trace.

    Scalars are IEEE-754 values in the representation of the standard
    library's [SpecFloat]: a C++ [float] is a binary32 value, a [double] a
    binary64 value, and the conversions between them are written out.
    PCL, Eigen and tf are external to the repository; the operations the
    node calls on them are gathered in the class [External]. *)

From Stdlib Require Import ZArith List Bool Lia String Permutation.
From Stdlib Require Import Floats.SpecFloat.
Import ListNotations.
Local Open Scope Z_scope.

(** ** IEEE-754 scalars *)

Module Ieee.

(** [float] is binary32 (24-bit significand), [double] is binary64. *)
Abbreviation float := spec_float (only parsing).
Abbreviation double := spec_float (only parsing).

Definition prec32 : Z := 24.
Definition emax32 : Z := 128.
Definition prec64 : Z := 53.
Definition emax64 : Z := 1024.

(** Re-encoding of a value in a format: exact when the value is
    representable, round-to-nearest-even otherwise (overflow gives an
    infinity). *)
Definition recode (prec emax : Z) (x : spec_float) : spec_float :=
  match x with
  | S754_finite s m e => binary_round prec emax s m e
  | _ => x
  end.

(** Implicit conversions of C++: [float -> double] (exact) and
    [double -> float] (narrowing). *)
Definition double_of_float (x : float) : double := recode prec64 emax64 x.
Definition float_of_double (x : double) : float := recode prec32 emax32 x.

Definition double_of_Z (z : Z) : double := binary_normalize prec64 emax64 z 0 false.
Definition float_of_Z (z : Z) : float := binary_normalize prec32 emax32 z 0 false.

(** A decimal literal [n/d] of type [double]: the correctly rounded
    quotient of two exactly representable integers. *)
Definition double_lit (n d : Z) : double :=
  SFdiv prec64 emax64 (double_of_Z n) (double_of_Z d).

Definition dadd : double -> double -> double := SFadd prec64 emax64.
Definition dlt : double -> double -> bool := SFltb.

(** [std::numeric_limits<float>::max()] and its [double] counterpart. *)
Definition FLT_MAX : float := SFmax_float prec32 emax32.
Definition DBL_MAX : double := SFmax_float prec64 emax64.

Definition is_nan (x : spec_float) : bool :=
  match x with S754_nan => true | _ => false end.

(** A [double] after the round trip through [float]: what a comparison
    sees of a score once it has been stored in a [float]. *)
Definition narrowed (x : double) : double :=
  double_of_float (float_of_double x).

End Ieee.
Import Ieee.

(** ** Machine integers *)

(** [int] is 32 bits wide.  Overflow of a signed [int] is undefined in C++;
    the model takes the two's-complement wrap-around of the target. *)
Definition INT_MAX : Z := 2147483647.
Definition int_wrap (z : Z) : Z := (z + 2^31) mod 2^32 - 2^31.

(** ** Messages and plain data *)

(** [geometry_msgs::Point]: three [double]s. *)
Record Point := { pt_x : double; pt_y : double; pt_z : double }.

(** [pcl::PointXYZ]: three [float]s. *)
Record PointXYZ := { pcl_x : float; pcl_y : float; pcl_z : float }.

(** [geometry_msgs::Transform]: translation and quaternion, in [double]. *)
Record Vector3 := { v_x : double; v_y : double; v_z : double }.
Record Quaternion := { q_x : double; q_y : double; q_z : double; q_w : double }.
Record Transform := { translation : Vector3; rotation : Quaternion }.

(** Lines of the result file. *)
Inductive line :=
| Header                                   (* id,x,y,z,yaw,pitch,roll *)
| Row (id : Z) (xyz : double * double * double) (ypr : double * double * double).

(** rosconsole output. *)
Inductive rosout :=
| saving_results (path : string)
| transform_not_set_properly
| node_initialized
| ICP_score (total : double)
| waiting_for_map_data
| waiting_for_gps_data
| dashes
| start_align (yaw : float)
| min_score_score (min_score : float) (score : double)
| Update_best_pose
| Get_initial_guess
| ITRI_bag_finished.

Inductive severity := INFO | WARN | ERROR.

(** ** Exceptions

    [std::vector::at] throws [std::out_of_range]; nothing in the node
    catches it. *)

Inductive exception := out_of_range.

Inductive outcome (A : Type) :=
| Returns (a : A)
| Throws (e : exception).
Arguments Returns {A} a.
Arguments Throws {A} e.

Definition bind {A B : Type} (c : outcome A) (k : A -> outcome B) : outcome B :=
  match c with Returns a => k a | Throws e => Throws e end.

Notation "a <- c ;; k" := (bind c (fun a => k))
  (at level 61, c at next level, right associativity).

Definition at_ {A : Type} (v : list A) (i : nat) : outcome A :=
  match nth_error v i with Some a => Returns a | None => Throws out_of_range end.

(** ** External collaborators

    The types and operations of PCL, Eigen and tf that the node uses.
    [translation_rotation_z p yaw] is
    [(Translation3f(p) * AngleAxisf(yaw, UnitZ())).matrix()];
    [first_icp_align] and [icp_align] are [align] followed by
    [getFinalTransformation] and [getFitnessScore] for the two parameter
    sets of the node (correspondence distance 2 for the heading search, 1 for
    tracking; 1000 iterations and both epsilons 1e-8 in each);
    [voxel_filter l c] is [setLeafSize(l,l,l)], [setInputCloud(c)],
    [filter]. *)
Class External := {
  PointCloud2 : Type;
  cloud : Type;
  Matrix4f : Type;
  Affine3d : Type;
  empty_cloud : cloud;
  fromROSMsg : PointCloud2 -> cloud;
  voxel_filter : float -> cloud -> cloud;
  Identity : Matrix4f;
  translation_rotation_z : PointXYZ -> float -> Matrix4f;
  first_icp_align : cloud -> cloud -> Matrix4f -> Matrix4f * double;
  icp_align : cloud -> cloud -> Matrix4f -> Matrix4f * double;
  cast_double : Matrix4f -> Affine3d;
  transformToEigen : Transform -> Affine3d;
  affine_mul : Affine3d -> Affine3d -> Affine3d;
  affine_inverse : Affine3d -> Affine3d;
  affine_translation : Affine3d -> double * double * double;
  getEulerYPR : Affine3d -> double * double * double
}.

(** ** The headings of the initial search

    [for (yaw = 0; yaw < 0.2; yaw += 0.05)] with [float yaw]: the test
    promotes [yaw] to [double]; the increment adds in [double] and narrows
    the sum back to [float].  The control variable does not depend on the
    loop body, so the loop is the body folded over the values [yaw] takes. *)

Definition yaw_lt_bound (yaw : float) : bool :=
  dlt (double_of_float yaw) (double_lit 2 10).

Definition yaw_next (yaw : float) : float :=
  float_of_double (dadd (double_of_float yaw) (double_lit 5 100)).

(** The values of [yaw] for which the body runs; [None] when the fuel is
    used up before the test fails. *)
Fixpoint yaw_values (fuel : nat) (yaw : float) : option (list float) :=
  match fuel with
  | O => None
  | S fuel' =>
      if yaw_lt_bound yaw
      then option_map (cons yaw) (yaw_values fuel' (yaw_next yaw))
      else Some []
  end.

Definition headings : list float :=
  match yaw_values 5 (float_of_Z 0) with Some l => l | None => [] end.

(** ** The node *)

Section Node.

Context {ext : External}.

(** One call of a registrar: source, target and initial guess. *)
Record align_call := { source : cloud; target : cloud; guess : Matrix4f }.

(** What the node does to the outside, in order.  [MapCallback] and
    [GpsCallback] record the invocation of these callbacks by the
    transport. *)
Inductive effect :=
| MapCallback (msg : PointCloud2)
| GpsCallback (msg : Point)
| FirstIcpAlign (c : align_call)
| IcpAlign (c : align_call)
| ROS_LOG (s : severity) (l : rosout)
| PublishGpsPose (p : Point)               (* pub_pose, gps_callback *)
| SendGpsTransform (p : Point)             (* br.sendTransform, gps_callback *)
| PublishPoints (result : Matrix4f) (msg : PointCloud2)
| SendTransformInverse (result : Matrix4f)
| PublishLidarPose (result : Matrix4f).

(** The data members of [class Localizer] that the callbacks read or
    write.  [outfile] holds the lines inserted into the stream while it
    is open; [d_max_list] and [n_iter_list] are never used and the
    subscriber, publisher and frame-name members only label outputs. *)
Record Localizer := {
  mapLeafSize : float;
  scanLeafSize : float;
  map_points : cloud;
  gps_point : PointXYZ;
  gps_ready : bool;
  map_ready : bool;
  initialied : bool;
  init_guess : Matrix4f;
  cnt : Z;
  outfile_is_open : bool;
  outfile : list line;
  car2Lidar : Transform;
  localization_score : double
}.

Definition set_map (st : Localizer) (m : cloud) : Localizer :=
  {| mapLeafSize := mapLeafSize st; scanLeafSize := scanLeafSize st;
     map_points := m; gps_point := gps_point st;
     gps_ready := gps_ready st; map_ready := true;
     initialied := initialied st; init_guess := init_guess st;
     cnt := cnt st; outfile_is_open := outfile_is_open st;
     outfile := outfile st; car2Lidar := car2Lidar st;
     localization_score := localization_score st |}.

Definition set_gps (st : Localizer) (p : PointXYZ) : Localizer :=
  {| mapLeafSize := mapLeafSize st; scanLeafSize := scanLeafSize st;
     map_points := map_points st; gps_point := p;
     gps_ready := true; map_ready := map_ready st;
     initialied := initialied st; init_guess := init_guess st;
     cnt := cnt st; outfile_is_open := outfile_is_open st;
     outfile := outfile st; car2Lidar := car2Lidar st;
     localization_score := localization_score st |}.

Definition set_init_guess (st : Localizer) (g : Matrix4f) (init : bool) : Localizer :=
  {| mapLeafSize := mapLeafSize st; scanLeafSize := scanLeafSize st;
     map_points := map_points st; gps_point := gps_point st;
     gps_ready := gps_ready st; map_ready := map_ready st;
     initialied := init; init_guess := g;
     cnt := cnt st; outfile_is_open := outfile_is_open st;
     outfile := outfile st; car2Lidar := car2Lidar st;
     localization_score := localization_score st |}.

Definition set_score (st : Localizer) (s : double) : Localizer :=
  {| mapLeafSize := mapLeafSize st; scanLeafSize := scanLeafSize st;
     map_points := map_points st; gps_point := gps_point st;
     gps_ready := gps_ready st; map_ready := map_ready st;
     initialied := initialied st; init_guess := init_guess st;
     cnt := cnt st; outfile_is_open := outfile_is_open st;
     outfile := outfile st; car2Lidar := car2Lidar st;
     localization_score := s |}.

Definition set_cnt (st : Localizer) (c : Z) (out : list line) : Localizer :=
  {| mapLeafSize := mapLeafSize st; scanLeafSize := scanLeafSize st;
     map_points := map_points st; gps_point := gps_point st;
     gps_ready := gps_ready st; map_ready := map_ready st;
     initialied := initialied st; init_guess := init_guess st;
     cnt := c; outfile_is_open := outfile_is_open st;
     outfile := out; car2Lidar := car2Lidar st;
     localization_score := localization_score st |}.

(** [outfile << l << std::endl]: nothing is inserted into a stream that
    failed to open. *)
Definition insert_line (open : bool) (out : list line) (l : line) : list line :=
  if open then out ++ [l] else out.

(** *** Construction and destruction *)

(** The parameter server: a parameter that is not set takes the default
    given at the call of [param]. *)
Record ParamServer := {
  baselink2lidar_trans : option (list float);
  baselink2lidar_rot : option (list float);
  result_save_path : option string;
  param_scanLeafSize : option float;
  param_mapLeafSize : option float
}.

Definition param {A : Type} (p : option A) (default : A) : A :=
  match p with Some v => v | None => default end.

Definition leaf_default : float := float_of_double (double_lit 3 10).

(** [Localizer::Localizer].  [open_ok] tells whether [outfile.open]
    succeeded.  The log holds what was printed before the constructor
    returned or threw. *)
Definition Localizer_new (ps : ParamServer) (open_ok : bool)
  : list effect * outcome Localizer :=
  let trans := param (baselink2lidar_trans ps) [] in
  let rot := param (baselink2lidar_rot ps) [] in
  let path := param (result_save_path ps) "result.csv"%string in
  let log1 := [ROS_LOG INFO (saving_results path)] in
  let out := insert_line open_ok [] Header in
  let log2 :=
    if negb (Nat.eqb (List.length trans) 3) || negb (Nat.eqb (List.length rot) 4)
    then [ROS_LOG ERROR transform_not_set_properly] else [] in
  let built :=
    tx <- at_ trans 0 ;; ty <- at_ trans 1 ;; tz <- at_ trans 2 ;;
    rx <- at_ rot 0 ;; ry <- at_ rot 1 ;; rz <- at_ rot 2 ;;
    rw <- at_ rot 3 ;;
    Returns
      {| mapLeafSize := param (param_mapLeafSize ps) leaf_default;
         scanLeafSize := param (param_scanLeafSize ps) leaf_default;
         map_points := empty_cloud;
         gps_point := {| pcl_x := float_of_Z 0; pcl_y := float_of_Z 0; pcl_z := float_of_Z 0 |};
         gps_ready := false; map_ready := false; initialied := false;
         init_guess := Identity;
         cnt := 0;
         outfile_is_open := open_ok;
         outfile := out;
         car2Lidar :=
           {| translation := {| v_x := double_of_float tx;
                                v_y := double_of_float ty;
                                v_z := double_of_float tz |};
              rotation := {| q_x := double_of_float rx;
                             q_y := double_of_float ry;
                             q_z := double_of_float rz;
                             q_w := double_of_float rw |} |};
         localization_score := double_of_Z 0 |} in
  match built with
  | Returns st => (log1 ++ log2 ++ [ROS_LOG INFO node_initialized], Returns st)
  | Throws e => (log1 ++ log2, Throws e)
  end.

(** [Localizer::~Localizer]: the total is printed when the file is open. *)
Definition Localizer_delete (st : Localizer) : list effect :=
  if outfile_is_open st
  then [ROS_LOG INFO (ICP_score (localization_score st))]
  else [].

(** *** Map and position callbacks *)

Definition map_callback (msg : PointCloud2) (st : Localizer)
  : Localizer * list effect :=
  (set_map st (fromROSMsg msg), [MapCallback msg]).

(** [gps_point] is a [pcl::PointXYZ]: the coordinates of the message are
    narrowed to [float]. *)
Definition PointXYZ_of_Point (p : Point) : PointXYZ :=
  {| pcl_x := float_of_double (pt_x p);
     pcl_y := float_of_double (pt_y p);
     pcl_z := float_of_double (pt_z p) |}.

Definition gps_callback (msg : Point) (st : Localizer)
  : Localizer * list effect :=
  (set_gps st (PointXYZ_of_Point msg),
   GpsCallback msg ::
     (if negb (initialied st)
      then [PublishGpsPose msg; SendGpsTransform msg] else [])).

(** *** [Localizer::align_map] *)

(** The locals of the heading search that outlive an iteration, with the
    member [init_guess] the loop overwrites.  ([update_cnt] and [min_yaw]
    are written or declared but never read.) *)
Record search := {
  s_init_guess : Matrix4f;
  min_score : float;
  min_pose : Matrix4f;
  s_log : list effect
}.

(** One iteration of the loop body. *)
Definition search_body (src tgt : cloud) (gps : PointXYZ)
           (s : search) (yaw : float) : search :=
  let g := translation_rotation_z gps yaw in
  let r := first_icp_align src tgt g in
  let score := snd r in
  let said :=
    [ROS_LOG INFO dashes; ROS_LOG INFO (start_align yaw);
     FirstIcpAlign {| source := src; target := tgt; guess := g |};
     ROS_LOG INFO (min_score_score (min_score s) score)] in
  if dlt score (double_of_float (min_score s))
  then {| s_init_guess := g;
          min_score := float_of_double score;
          min_pose := fst r;
          s_log := s_log s ++ said ++ [ROS_LOG INFO Update_best_pose] |}
  else {| s_init_guess := g;
          min_score := min_score s;
          min_pose := min_pose s;
          s_log := s_log s ++ said |}.

Definition heading_search (src tgt : cloud) (gps : PointXYZ)
           (g0 : Matrix4f) : search :=
  fold_left (search_body src tgt gps) headings
    {| s_init_guess := g0; min_score := FLT_MAX;
       min_pose := Identity; s_log := [] |}.

(** The block guarded by [if (!initialied)]. *)
Definition find_initial_guess (src tgt : cloud) (st : Localizer)
  : Localizer * list effect :=
  if negb (initialied st)
  then
    let s := heading_search src tgt (gps_point st) (init_guess st) in
    (set_init_guess st (min_pose s) true,
     s_log s ++ [ROS_LOG INFO Get_initial_guess])
  else (st, []).

Definition align_map (scan_points : cloud) (st : Localizer)
  : Matrix4f * Localizer * list effect :=
  let filtered_map := voxel_filter (mapLeafSize st) (map_points st) in
  let filtered_scan := voxel_filter (scanLeafSize st) scan_points in
  let (st1, said) := find_initial_guess filtered_scan filtered_map st in
  let r := icp_align filtered_scan filtered_map (init_guess st1) in
  let st2 := set_score st1 (dadd (localization_score st1) (snd r)) in
  (fst r,
   set_init_guess st2 (fst r) (initialied st2),
   said ++ [IcpAlign {| source := filtered_scan; target := filtered_map;
                        guess := init_guess st1 |}]).

(** *** Scan callback and the event loop *)

(** A message of the map or of the position topic. *)
Inductive feed :=
| MapMsg (msg : PointCloud2)
| GpsMsg (msg : Point).

Definition dispatch (f : feed) (st : Localizer) : Localizer * list effect :=
  match f with
  | MapMsg msg => map_callback msg st
  | GpsMsg msg => gps_callback msg st
  end.

(** The body of [pc_callback] after the waiting loop. *)
Definition pc_process (msg : PointCloud2) (st : Localizer)
  : Localizer * list effect :=
  let '(result, st1, said) := align_map (fromROSMsg msg) st in
  let tf_p :=
    affine_mul (cast_double result)
               (affine_inverse (transformToEigen (car2Lidar st1))) in
  let id := int_wrap (cnt st1 + 1) in
  let row := Row id (affine_translation tf_p) (getEulerYPR tf_p) in
  (set_cnt st1 id (insert_line (outfile_is_open st1) (outfile st1) row),
   said
     ++ [PublishPoints result msg; SendTransformInverse result;
         PublishLidarPose result]
     ++ (if id =? 396 then [ROS_LOG INFO ITRI_bag_finished] else [])).

(** What the transport hands to the node, in order of dispatch.  The three
    subscriptions of the constructor share one callback queue, and the
    queue is served by [ros::spin()] in [main] and by [ros::spinOnce()]
    inside the waiting loop of [pc_callback] alike.  A delivery is a map or
    position message, or a scan together with the polls of its waiting
    loop, each poll being the deliveries that one [spinOnce] finds pending.
    A scan pending at that moment has its callback entered while the first
    scan still waits, with polls of its own.  The transport is not part of
    the repository: which messages are pending at which moment is an input
    of a run. *)
#[warnings="-register-all"]
Inductive delivery :=
| Deliver (f : feed)
| Scan (msg : PointCloud2) (polls : list (list delivery)).

(** Induction on a delivery, with the property at hand for every delivery
    in the polls of a scan. *)
Fixpoint delivery_nested_ind (P : delivery -> Prop)
         (H_feed : forall f, P (Deliver f))
         (H_scan : forall msg polls,
             Forall (Forall P) polls -> P (Scan msg polls))
         (d : delivery) : P d :=
  match d with
  | Deliver f => H_feed f
  | Scan msg polls =>
      H_scan msg polls
        ((fix each_poll (ps : list (list delivery)) : Forall (Forall P) ps :=
            match ps with
            | [] => Forall_nil _
            | p :: ps' =>
                Forall_cons p
                  ((fix each (l : list delivery) : Forall P l :=
                      match l with
                      | [] => Forall_nil _
                      | d' :: l' =>
                          Forall_cons d'
                            (delivery_nested_ind P H_feed H_scan d') (each l')
                      end) p)
                  (each_poll ps')
            end) polls)
  end.

(** The warnings of one round of the waiting loop. *)
Definition warnings (st : Localizer) : list effect :=
  (if gps_ready st then [ROS_LOG WARN waiting_for_map_data] else [])
  ++ (if map_ready st then [ROS_LOG WARN waiting_for_gps_data] else []).

Section Queue.

(** The callback run for one delivery. *)
Variable callback : delivery -> Localizer -> option (Localizer * list effect).

(** The callbacks of the pending deliveries run in order; a callback that
    never returns ([None]) leaves the rest undone. *)
Fixpoint call_available (pending : list delivery) (st : Localizer)
  : option (Localizer * list effect) :=
  match pending with
  | [] => Some (st, [])
  | d :: rest =>
      match callback d st with
      | None => None
      | Some (st1, said1) =>
          match call_available rest st1 with
          | None => None
          | Some (st2, said2) => Some (st2, said1 ++ said2)
          end
      end
  end.

(** [while (!(gps_ready & map_ready)) { ...; ros::spinOnce(); }].
    [polls] lists what each successive [spinOnce] finds pending; when
    the list is used up before both flags are set the loop never ends
    ([None]). *)
Fixpoint wait_loop (polls : list (list delivery)) (st : Localizer)
  : option (Localizer * list effect) :=
  if gps_ready st && map_ready st then Some (st, [])
  else
    match polls with
    | [] => None
    | pending :: later =>
        match call_available pending st with
        | None => None
        | Some (st1, said1) =>
            match wait_loop later st1 with
            | None => None
            | Some (st2, said2) => Some (st2, warnings st ++ said1 ++ said2)
            end
        end
    end.

End Queue.

(** The callback of a delivery: [map_callback] or [gps_callback] for a
    message of these topics, [pc_callback] for a scan. *)
Fixpoint callback (d : delivery) (st : Localizer)
  : option (Localizer * list effect) :=
  match d with
  | Deliver f => Some (dispatch f st)
  | Scan msg polls =>
      match wait_loop callback polls st with
      | None => None
      | Some (st1, said1) =>
          let (st2, said2) := pc_process msg st1 in
          Some (st2, said1 ++ said2)
      end
  end.

(** [ros::spinOnce()] inside the waiting loop. *)
Definition spinOnce (pending : list delivery) (st : Localizer)
  : option (Localizer * list effect) :=
  call_available callback pending st.

Definition wait_ready (polls : list (list delivery)) (st : Localizer)
  : option (Localizer * list effect) :=
  wait_loop callback polls st.

Definition pc_callback (msg : PointCloud2) (polls : list (list delivery))
           (st : Localizer) : option (Localizer * list effect) :=
  match wait_ready polls st with
  | None => None
  | Some (st1, said1) =>
      let (st2, said2) := pc_process msg st1 in
      Some (st2, said1 ++ said2)
  end.

(** [ros::spin()] over a finite sequence of deliveries. *)
Definition spin (ds : list delivery) (st : Localizer)
  : option (Localizer * list effect) :=
  call_available callback ds st.

(** *** The order of the scans

    A waiting loop polls until both flags are set, and the flags are set by
    the map and position messages dispatched on the way: which polls of a
    run are used, and so which scans have their callbacks entered and in
    which order they are processed, can be read off the deliveries and the
    flags at the start. *)

Definition flags : Type := bool * bool.    (* gps_ready, map_ready *)

Definition flags_of (st : Localizer) : flags := (gps_ready st, map_ready st).

Definition flag_feed (f : feed) (r : flags) : flags :=
  match f with
  | GpsMsg _ => (true, snd r)
  | MapMsg _ => (fst r, true)
  end.

Section Order.

Variable visit : delivery -> flags -> list PointCloud2 * flags.

Fixpoint visit_available (pending : list delivery) (r : flags)
  : list PointCloud2 * flags :=
  match pending with
  | [] => ([], r)
  | d :: rest =>
      let (a, r1) := visit d r in
      let (b, r2) := visit_available rest r1 in
      (a ++ b, r2)
  end.

Fixpoint visit_loop (polls : list (list delivery)) (r : flags)
  : list PointCloud2 * flags :=
  if fst r && snd r then ([], r)
  else
    match polls with
    | [] => ([], r)
    | pending :: later =>
        let (a, r1) := visit_available pending r in
        let (b, r2) := visit_loop later r1 in
        (a ++ b, r2)
    end.

End Order.

(** *** Whether the callbacks return

    The flags a callback leaves, [None] when it never returns: this too
    depends on the flags it finds and on what is pending, not on the
    contents of the messages. *)
Section FlagsAfter.

Variable flags_after : delivery -> flags -> option flags.

Fixpoint flags_after_available (pending : list delivery) (r : flags)
  : option flags :=
  match pending with
  | [] => Some r
  | d :: rest =>
      match flags_after d r with
      | None => None
      | Some r1 => flags_after_available rest r1
      end
  end.

Fixpoint flags_after_loop (polls : list (list delivery)) (r : flags)
  : option flags :=
  if fst r && snd r then Some r
  else
    match polls with
    | [] => None
    | pending :: later =>
        match flags_after_available pending r with
        | None => None
        | Some r1 => flags_after_loop later r1
        end
    end.

End FlagsAfter.

Fixpoint flags_after (d : delivery) (r : flags) : option flags :=
  match d with
  | Deliver f => Some (flag_feed f r)
  | Scan _ polls => flags_after_loop flags_after polls r
  end.

(** The scans whose callbacks run, with [place] putting a scan before or
    after those handled during its waiting loop. *)
Fixpoint visit (place : PointCloud2 -> list PointCloud2 -> list PointCloud2)
         (d : delivery) (r : flags) : list PointCloud2 * flags :=
  match d with
  | Deliver f => ([], flag_feed f r)
  | Scan msg polls =>
      let (a, r1) := visit_loop (visit place) polls r in
      (place msg a, r1)
  end.

(** A scan comes before those dispatched during its waiting loop in the
    order in which the callbacks are entered, the order of arrival. *)
Definition entering (msg : PointCloud2) (inner : list PointCloud2) :=
  msg :: inner.

(** It comes after them in the order in which the scans leave the waiting
    loop and are processed. *)
Definition leaving (msg : PointCloud2) (inner : list PointCloud2) :=
  inner ++ [msg].

Definition arrivals_from (st : Localizer) (ds : list delivery)
  : list PointCloud2 :=
  fst (visit_available (visit entering) ds (flags_of st)).

Definition scans_from (st : Localizer) (ds : list delivery)
  : list PointCloud2 :=
  fst (visit_available (visit leaving) ds (flags_of st)).

(** The same for a node that has neither map nor position, as the
    constructor leaves it. *)
Definition arrivals (ds : list delivery) : list PointCloud2 :=
  fst (visit_available (visit entering) ds (false, false)).

Definition scans (ds : list delivery) : list PointCloud2 :=
  fst (visit_available (visit leaving) ds (false, false)).

(** No scan is pending while another scan waits. *)
Definition is_feed (d : delivery) : bool :=
  match d with Deliver _ => true | Scan _ _ => false end.

Definition one_at_a_time (d : delivery) : bool :=
  match d with
  | Deliver _ => true
  | Scan _ polls => forallb (forallb is_feed) polls
  end.

Definition scans_in_turn (ds : list delivery) : bool :=
  forallb one_at_a_time ds.


(** *** Observations on a run *)

(** The registrar calls of a trace, in order. *)
Inductive registration :=
| Boot (c : align_call)      (* a call of the heading search *)
| Track (c : align_call).    (* a steady-state call *)

Definition registrations (tr : list effect) : list registration :=
  flat_map (fun e => match e with
                     | FirstIcpAlign c => [Boot c]
                     | IcpAlign c => [Track c]
                     | _ => []
                     end) tr.

Definition boot_calls_of (rs : list registration) : list align_call :=
  flat_map (fun r => match r with Boot c => [c] | Track _ => [] end) rs.

Definition track_calls_of (rs : list registration) : list align_call :=
  flat_map (fun r => match r with Track c => [c] | Boot _ => [] end) rs.

Definition boot_calls (tr : list effect) : list align_call :=
  boot_calls_of (registrations tr).

Definition track_calls (tr : list effect) : list align_call :=
  track_calls_of (registrations tr).

(** What the two registrars return for a call. *)
Definition boot_out (c : align_call) : Matrix4f * double :=
  first_icp_align (source c) (target c) (guess c).
Definition track_out (c : align_call) : Matrix4f * double :=
  icp_align (source c) (target c) (guess c).

(** The comparison and update at the end of the loop body, on the pair
    ([min_score], [min_pose]). *)
Definition pick (acc : float * Matrix4f) (o : Matrix4f * double)
  : float * Matrix4f :=
  if dlt (snd o) (double_of_float (fst acc))
  then (float_of_double (snd o), fst o)
  else acc.

Definition select (outs : list (Matrix4f * double)) : float * Matrix4f :=
  fold_left pick outs (FLT_MAX, Identity).

(** Storing the score of a candidate in the [float] [min_score] changes
    the outcome of none of its comparisons with the scores of later
    candidates. *)
Fixpoint narrowing_harmless (outs : list (Matrix4f * double)) : Prop :=
  match outs with
  | [] => True
  | o :: rest =>
      Forall (fun o' => dlt (snd o') (narrowed (snd o)) = dlt (snd o') (snd o))
             rest
      /\ narrowing_harmless rest
  end.

(** The candidate at position [i] is the first one with the minimum
    score. *)
Definition first_minimum (outs : list (Matrix4f * double)) (i : nat)
           (o : Matrix4f * double) : Prop :=
  nth_error outs i = Some o
  /\ (forall j o', nth_error outs j = Some o' -> dlt (snd o') (snd o) = false)
  /\ (forall j o', (j < i)%nat -> nth_error outs j = Some o' ->
                   dlt (snd o) (snd o') = true).

(** Steady-state calls chained by their results, from a first guess. *)
Fixpoint chained (g : Matrix4f) (ts : list align_call) : Prop :=
  match ts with
  | [] => True
  | c :: rest => guess c = g /\ chained (fst (track_out c)) rest
  end.

Fixpoint final_guess (g : Matrix4f) (ts : list align_call) : Matrix4f :=
  match ts with
  | [] => g
  | c :: rest => final_guess (fst (track_out c)) rest
  end.

(** The pose written for a registration result, and the row of frame
    [k] (counted from 0). *)
Definition map_to_car (c2l : Transform) (result : Matrix4f) : Affine3d :=
  affine_mul (cast_double result) (affine_inverse (transformToEigen c2l)).

Definition row_of (c2l : Transform) (k : nat) (c : align_call) : line :=
  let tf_p := map_to_car c2l (fst (track_out c)) in
  Row (int_wrap (Z.of_nat (S k))) (affine_translation tf_p) (getEulerYPR tf_p).

Fixpoint rows_from (c2l : Transform) (k : nat) (ts : list align_call)
  : list line :=
  match ts with
  | [] => []
  | c :: rest => row_of c2l k c :: rows_from c2l (S k) rest
  end.

Definition line_id (l : line) : option Z :=
  match l with Header => None | Row id _ _ => Some id end.

(** The latest map and position message handled in a trace. *)
Record latest := { latest_map : option PointCloud2; latest_fix : option Point }.

Definition note (s : latest) (e : effect) : latest :=
  match e with
  | MapCallback m => {| latest_map := Some m; latest_fix := latest_fix s |}
  | GpsCallback p => {| latest_map := latest_map s; latest_fix := Some p |}
  | _ => s
  end.

Definition latest_of (tr : list effect) : latest :=
  fold_left note tr {| latest_map := None; latest_fix := None |}.

(** The call of the heading search for one heading. *)
Definition boot_call (src tgt : cloud) (gps : PointXYZ) (yaw : float)
  : align_call :=
  {| source := src; target := tgt; guess := translation_rotation_z gps yaw |}.

(** A registrar call is grounded in the messages handled before it: its
    target is the downsampled map of the latest map message, and the guess
    of a heading-search call is built from the latest position message. *)
Definition grounded (leaf : float) (s : latest) (e : effect) : Prop :=
  match e with
  | FirstIcpAlign c =>
      exists m p yaw,
        latest_map s = Some m /\ latest_fix s = Some p /\ In yaw headings
        /\ target c = voxel_filter leaf (fromROSMsg m)
        /\ guess c = translation_rotation_z (PointXYZ_of_Point p) yaw
  | IcpAlign c =>
      exists m, latest_map s = Some m
                /\ target c = voxel_filter leaf (fromROSMsg m)
  | _ => True
  end.

Fixpoint sound (leaf : float) (s : latest) (tr : list effect) : Prop :=
  match tr with
  | [] => True
  | e :: rest => grounded leaf s e /\ sound leaf (note s e) rest
  end.

Definition is_callback (e : effect) : bool :=
  match e with
  | MapCallback _ | GpsCallback _ => true
  | _ => false
  end.

(** A node as the constructor leaves it. *)
Definition fresh (L0 : Localizer) : Prop :=
  initialied L0 = false /\ gps_ready L0 = false /\ map_ready L0 = false
  /\ cnt L0 = 0 /\ localization_score L0 = double_of_Z 0
  /\ outfile L0 = insert_line (outfile_is_open L0) [] Header.

(** The fitness scores of steady-state calls, added up from 0 in order. *)
Definition total_score (ts : list align_call) : double :=
  fold_left dadd (map (fun c => snd (track_out c)) ts) (double_of_Z 0).

(** The state of a node started from [L0] after the scans [ms], against
    the trace [h] it has produced. *)
Definition tracking (L0 : Localizer) (ms : list PointCloud2)
           (st : Localizer) (h : list effect) : Prop :=
  mapLeafSize st = mapLeafSize L0 /\ scanLeafSize st = scanLeafSize L0
  /\ car2Lidar st = car2Lidar L0 /\ outfile_is_open st = outfile_is_open L0
  /\ map source (track_calls h)
     = map (fun m => voxel_filter (scanLeafSize L0) (fromROSMsg m)) ms
  /\ cnt st = int_wrap (Z.of_nat (List.length ms))
  /\ localization_score st = total_score (track_calls h)
  /\ outfile st
     = (if outfile_is_open L0
        then Header :: rows_from (car2Lidar L0) 0 (track_calls h) else [])
  /\ (if initialied st
      then exists gps t ts,
          let bs := map (boot_call (source t) (target t) gps) headings in
          registrations h = map Boot bs ++ map Track (t :: ts)
          /\ chained (snd (select (map boot_out bs))) (t :: ts)
          /\ init_guess st = final_guess Identity (t :: ts)
      else registrations h = []).

(** The stored map and position against the messages handled in [h]. *)
Definition fed (L0 st : Localizer) (h : list effect) : Prop :=
  mapLeafSize st = mapLeafSize L0
  /\ map_points st
     = match latest_map (latest_of h) with
       | Some m => fromROSMsg m
       | None => map_points L0
       end
  /\ (map_ready st = true -> latest_map (latest_of h) <> None)
  /\ (gps_ready st = true ->
      exists p, latest_fix (latest_of h) = Some p
                /\ gps_point st = PointXYZ_of_Point p)
  /\ sound (mapLeafSize L0) {| latest_map := None; latest_fix := None |} h.

(** *** Further observations *)

(** [Localizer::get_cnt]. *)
Definition get_cnt (st : Localizer) : Z := cnt st.

Definition is_fix (f : feed) : bool :=
  match f with GpsMsg _ => true | MapMsg _ => false end.

Definition is_map (f : feed) : bool :=
  match f with MapMsg _ => true | GpsMsg _ => false end.

(** The polls of a scan when the scans [ss] arrive one after the other
    while it waits: the callback of each is entered by the [spinOnce] of
    the one before it, and the last of them has the polls [polls]. *)
Fixpoint pile (ss : list PointCloud2) (polls : list (list delivery))
  : list (list delivery) :=
  match ss with
  | [] => polls
  | s :: rest => [[Scan s (pile rest polls)]]
  end.

(** A scan whose waiting loop finds nothing pending. *)
Definition without_polls (d : delivery) : delivery :=
  match d with
  | Scan msg _ => Scan msg []
  | Deliver f => Deliver f
  end.

(** The deliveries other than position messages. *)
Definition is_fix_delivery (d : delivery) : bool :=
  match d with
  | Deliver (GpsMsg _) => true
  | _ => false
  end.

Definition is_map_delivery (d : delivery) : bool :=
  match d with
  | Deliver (MapMsg _) => true
  | _ => false
  end.

Definition drop_fixes (ds : list delivery) : list delivery :=
  filter (fun d => negb (is_fix_delivery d)) ds.

Definition is_gps_callback (e : effect) : bool :=
  match e with GpsCallback _ => true | _ => false end.

(** Two nodes that differ at most in [gps_point]. *)
Definition alike (a b : Localizer) : Prop :=
  mapLeafSize a = mapLeafSize b /\ scanLeafSize a = scanLeafSize b
  /\ map_points a = map_points b
  /\ gps_ready a = gps_ready b /\ map_ready a = map_ready b
  /\ initialied a = initialied b /\ init_guess a = init_guess b
  /\ cnt a = cnt b /\ outfile_is_open a = outfile_is_open b
  /\ outfile a = outfile b /\ car2Lidar a = car2Lidar b
  /\ localization_score a = localization_score b.

(** What the heading search itself emits: its registrar calls and its four
    log lines. *)
Definition search_entry (e : effect) : bool :=
  match e with
  | FirstIcpAlign _ => true
  | ROS_LOG INFO dashes => true
  | ROS_LOG INFO (start_align _) => true
  | ROS_LOG INFO (min_score_score _ _) => true
  | ROS_LOG INFO Update_best_pose => true
  | _ => false
  end.

(** The three publications of a processed scan, in order. *)
Definition published_points (tr : list effect) : list (Matrix4f * PointCloud2) :=
  flat_map (fun e => match e with
                     | PublishPoints r m => [(r, m)]
                     | _ => []
                     end) tr.

Definition sent_transforms (tr : list effect) : list Matrix4f :=
  flat_map (fun e => match e with
                     | SendTransformInverse r => [r]
                     | _ => []
                     end) tr.

Definition published_poses (tr : list effect) : list Matrix4f :=
  flat_map (fun e => match e with
                     | PublishLidarPose r => [r]
                     | _ => []
                     end) tr.

Definition is_finished (e : effect) : bool :=
  match e with
  | ROS_LOG INFO ITRI_bag_finished => true
  | _ => false
  end.

Definition is_row (l : line) : bool :=
  match l with Row _ _ _ => true | Header => false end.

Definition is_registration (e : effect) : bool :=
  match e with
  | FirstIcpAlign _ | IcpAlign _ => true
  | _ => false
  end.

(** What has been handled so far: the latest messages, and whether a
    registrar has been called. *)
Record seen := { seen_latest : latest; seen_started : bool }.

Definition observe (s : seen) (e : effect) : seen :=
  {| seen_latest := note (seen_latest s) e;
     seen_started := seen_started s || is_registration e |}.

Definition nothing_seen : seen :=
  {| seen_latest := {| latest_map := None; latest_fix := None |};
     seen_started := false |}.

Definition seen_in (tr : list effect) : seen := fold_left observe tr nothing_seen.

(** An entry comes at a moment that allows it: a registrar call after a
    map and a position, a warning while the other input is there and its
    own is missing, the pose of a position message before any registrar
    call and right after that message. *)
Definition timely (s : seen) (e : effect) : Prop :=
  match e with
  | FirstIcpAlign _ | IcpAlign _ =>
      latest_map (seen_latest s) <> None /\ latest_fix (seen_latest s) <> None
  | ROS_LOG WARN l =>
      seen_started s = false
      /\ ((l = waiting_for_map_data
           /\ latest_fix (seen_latest s) <> None
           /\ latest_map (seen_latest s) = None)
          \/ (l = waiting_for_gps_data
              /\ latest_map (seen_latest s) <> None
              /\ latest_fix (seen_latest s) = None))
  | ROS_LOG ERROR _ => False
  | PublishGpsPose p | SendGpsTransform p =>
      latest_fix (seen_latest s) = Some p /\ seen_started s = false
  | _ => True
  end.

(** The entries of a processed scan: no callback, no warning, no pose of
    a position message. *)
Definition calm (e : effect) : bool :=
  match e with
  | FirstIcpAlign _ | IcpAlign _ | ROS_LOG INFO _
  | PublishPoints _ _ | SendTransformInverse _ | PublishLidarPose _ => true
  | _ => false
  end.

Fixpoint orderly (s : seen) (tr : list effect) : Prop :=
  match tr with
  | [] => True
  | e :: rest => timely s e /\ orderly (observe s e) rest
  end.

(** The flags of a node against what its trace has seen. *)
Definition in_step (st : Localizer) (h : list effect) : Prop :=
  (gps_ready st = true <-> latest_fix (seen_latest (seen_in h)) <> None)
  /\ (map_ready st = true <-> latest_map (seen_latest (seen_in h)) <> None)
  /\ initialied st = seen_started (seen_in h)
  /\ (initialied st = true -> gps_ready st = true /\ map_ready st = true)
  /\ orderly nothing_seen h.

End Node.

(** ** A small instance of the collaborators

    Clouds are numbered, a matrix is kept as the pair of its translation and
    heading, and an affine transform as the expression that built it.  The
    two registrars are left open. *)

Module Toy.

Definition pose : Type := PointXYZ * float.

Inductive affine :=
| of_matrix (m : pose)
| of_transform (t : Transform)
| mul (a b : affine)
| inverse (a : affine).

Definition f0 : float := float_of_Z 0.
Definition origin : PointXYZ := {| pcl_x := f0; pcl_y := f0; pcl_z := f0 |}.

(** Translations and angles are not read off in this instance. *)
Definition unread : double * double * double :=
  (double_of_Z 0, double_of_Z 0, double_of_Z 0).

Definition world (first icp : Z -> Z -> pose -> pose * double) : External :=
  {| PointCloud2 := Z;
     cloud := Z;
     Matrix4f := pose;
     Affine3d := affine;
     empty_cloud := 0;
     fromROSMsg := fun m => m;
     voxel_filter := fun _ c => c;
     Identity := (origin, f0);
     translation_rotation_z := fun p yaw => (p, yaw);
     first_icp_align := first;
     icp_align := icp;
     cast_double := of_matrix;
     transformToEigen := of_transform;
     affine_mul := mul;
     affine_inverse := inverse;
     affine_translation := fun _ => unread;
     getEulerYPR := fun _ => unread |}.

(** A dyadic score [m * 2^e]. *)
Definition dyadic (m : positive) (e : Z) : double :=
  binary_round prec64 emax64 false m e.

(** Heading search scored by the heading of the guess: the four headings
    are told apart by their exponents. *)
Definition by_heading (vals : list double) (yaw : float) : double :=
  match yaw with
  | S754_zero _ => nth 0 vals (double_of_Z 0)
  | S754_finite _ _ e =>
      if e =? -28 then nth 1 vals (double_of_Z 0)
      else if e =? -27 then nth 2 vals (double_of_Z 0)
      else nth 3 vals (double_of_Z 0)
  | _ => double_of_Z 0
  end.

Definition scored (vals : list double) (src tgt : Z) (g : pose) : pose * double :=
  (g, by_heading vals (snd g)).

(** The scores 5.0, 3.0, 4.0, 3.5 for the four headings in order. *)
Definition scores_spec : list double :=
  [double_of_Z 5; double_of_Z 3; double_of_Z 4; dyadic 7 (-1)].

(** A registrar that finds no correspondence reports [DBL_MAX]; its
    transform is the guess moved to heading 1. *)
Definition lost (src tgt : Z) (g : pose) : pose * double :=
  ((fst g, float_of_Z 1), DBL_MAX).

(** Scores 1 + 2^-30 and then 1: the second is lower, but the first
    narrows to the [float] 1. *)
Definition scores_close : list double :=
  [dyadic (2^30 + 1) (-30); double_of_Z 1; double_of_Z 2; double_of_Z 2].

(** Steady-state registration that returns its guess with score 1/4. *)
Definition hold (src tgt : Z) (g : pose) : pose * double :=
  (g, dyadic 1 (-2)).

(** The scores 0.1, 0.05, 0.2, 0.3: none of them is a [float]. *)
Definition scores_plain : list double :=
  [double_lit 1 10; double_lit 5 100; double_lit 2 10; double_lit 3 10].

(** Steady-state registration that stamps the heading of its result with
    the number of the scan. *)
Definition stamp (n : Z) : float :=
  match n with
  | Zpos p => S754_finite false p 0
  | _ => f0
  end.

Definition stamped (src tgt : Z) (g : pose) : pose * double :=
  ((fst g, stamp src), dyadic 1 (-2)).

Definition w_spec : External := world (scored scores_spec) hold.
Definition w_lost : External := world lost hold.
Definition w_close : External := world (scored scores_close) hold.
Definition w_plain : External := world (scored scores_plain) hold.
Definition w_stamp : External := world (scored scores_spec) stamped.

Definition fl (z : Z) : float := float_of_Z z.

Definition params : ParamServer :=
  {| baselink2lidar_trans := Some [fl 1; fl 2; fl 3];
     baselink2lidar_rot := Some [fl 0; fl 0; fl 0; fl 1];
     result_save_path := None;
     param_scanLeafSize := None;
     param_mapLeafSize := None |}.

Definition unset : ParamServer :=
  {| baselink2lidar_trans := None;
     baselink2lidar_rot := None;
     result_save_path := None;
     param_scanLeafSize := None;
     param_mapLeafSize := None |}.

Definition fix1 : Point :=
  {| pt_x := double_of_Z 10; pt_y := double_of_Z 5; pt_z := double_of_Z 0 |}.
Definition fix2 : Point :=
  {| pt_x := double_of_Z 20; pt_y := double_of_Z 6; pt_z := double_of_Z 0 |}.

(** Runs: position, map, then scans. *)
Definition two_frames (w : External) (m s1 s2 : @PointCloud2 w)
  : list (@delivery w) :=
  [Deliver (GpsMsg fix1); Deliver (MapMsg m); Scan s1 []; Scan s2 []].

(** The first scan arrives before the map and the position. *)
Definition scan_first (w : External) (m s1 s2 : @PointCloud2 w)
  : list (@delivery w) :=
  [Scan s1 [[Deliver (GpsMsg fix1)]; []; [Deliver (MapMsg m)]]; Scan s2 []].

(** Two scans arrive before the map and the position: the callback of the
    second is entered by the [spinOnce] of the first, and the map and the
    position are handled by the [spinOnce] of the second. *)
Definition scans_waiting (w : External) (m s1 s2 s3 : @PointCloud2 w)
  : list (@delivery w) :=
  [Scan s1 [[Scan s2 [[Deliver (GpsMsg fix1); Deliver (MapMsg m)]]]];
   Scan s3 []].

Definition two_fixes (w : External) (m s1 : @PointCloud2 w)
  : list (@delivery w) :=
  [Deliver (GpsMsg fix1); Deliver (GpsMsg fix2); Deliver (MapMsg m);
   Scan s1 []].

Definition two_maps (w : External) (m1 m2 s1 s2 : @PointCloud2 w)
  : list (@delivery w) :=
  [Deliver (GpsMsg fix1); Deliver (MapMsg m1); Scan s1 [];
   Deliver (MapMsg m2); Scan s2 []].

Definition burst (w : External) (m s : @PointCloud2 w) (n : nat)
  : list (@delivery w) :=
  Deliver (GpsMsg fix1) :: Deliver (MapMsg m) :: repeat (Scan s []) n.

Definition many : nat := Z.to_nat (2 ^ 31).

(** The node the constructor returns and the outcome of a run, with a
    blank node standing in where there is none. *)
Definition blank (w : External) : @Localizer w :=
  {| mapLeafSize := f0; scanLeafSize := f0;
     map_points := empty_cloud; gps_point := origin;
     gps_ready := false; map_ready := false; initialied := false;
     init_guess := Identity; cnt := 0;
     outfile_is_open := false; outfile := [];
     car2Lidar :=
       {| translation := {| v_x := f0; v_y := f0; v_z := f0 |};
          rotation := {| q_x := f0; q_y := f0; q_z := f0; q_w := f0 |} |};
     localization_score := f0 |}.

Definition said_at_start (w : External) (ps : ParamServer) (open_ok : bool)
  : list (@effect w) :=
  fst (Localizer_new ps open_ok).

Definition built (w : External) (ps : ParamServer) (open_ok : bool)
  : @Localizer w :=
  match snd (Localizer_new ps open_ok) with
  | Returns L => L
  | Throws _ => blank w
  end.

(** A registrar call standing in where a run has none. *)
Definition no_call (w : External) : @align_call w :=
  {| source := empty_cloud; target := empty_cloud; guess := Identity |}.

Definition ran (w : External) (ds : list (@delivery w)) (L0 : @Localizer w)
  : @Localizer w * list (@effect w) :=
  match spin ds L0 with
  | Some r => r
  | None => (L0, [])
  end.

(** More runs: a position and a map and nothing else; scans whose polls
    hold messages; position and map messages between scans. *)
Definition feeds_only (w : External) (m : @PointCloud2 w)
  : list (@delivery w) :=
  [Deliver (GpsMsg fix1); Deliver (MapMsg m)].

Definition scans_with_polls (w : External) (m s1 s2 : @PointCloud2 w)
  : list (@delivery w) :=
  [Scan s1 [[Deliver (GpsMsg fix2)]; [Deliver (MapMsg m)]];
   Scan s2 [[Deliver (MapMsg m)]]].

Definition fixes_between (w : External) (m s1 s2 : @PointCloud2 w)
  : list (@delivery w) :=
  [Deliver (GpsMsg fix2); Scan s1 []; Deliver (MapMsg m);
   Deliver (GpsMsg fix1); Scan s2 []].

(** A second position message after the first scan. *)
Definition late_fix (w : External) (m s1 s2 : @PointCloud2 w)
  : list (@delivery w) :=
  [Deliver (GpsMsg fix1); Deliver (MapMsg m); Scan s1 [];
   Deliver (GpsMsg fix2); Scan s2 []].

(** The scan waits first with nothing received, then with the map only,
    and the second time round with the position only. *)
Definition map_then_fix (w : External) (m s1 : @PointCloud2 w)
  : list (@delivery w) :=
  [Scan s1 [[]; [Deliver (MapMsg m)]; []; [Deliver (GpsMsg fix1)]]].

Definition fix_then_map (w : External) (m s1 : @PointCloud2 w)
  : list (@delivery w) :=
  [Scan s1 [[Deliver (GpsMsg fix1)]; []; [Deliver (MapMsg m)]]].

End Toy.

(** * Properties *)

(** ** Order of IEEE-754 values *)

Ltac order_cases :=
  repeat match goal with
    | |- context [Z.compare ?a ?b] => destruct (Z.compare_spec a b)
    | |- context [Pos.compare_cont Eq ?a ?b] =>
        change (Pos.compare_cont Eq a b) with (Pos.compare a b);
        destruct (Pos.compare_spec a b)
    end.

Ltac order_crush :=
  unfold dlt, SFltb, SFcompare, is_nan;
  repeat match goal with
    | v : spec_float |- _ => destruct v
    | b : bool |- _ => destruct b
    end;
  try discriminate; try reflexivity;
  order_cases; simpl; intros; subst;
  try discriminate; try reflexivity; try lia.

Lemma dlt_irrefl (a : double) : dlt a a = false.
Proof.
  unfold dlt, SFltb, SFcompare.
  destruct a as [[|]|[|]| |[|] m e]; try reflexivity;
    rewrite Z.compare_refl;
    change (Pos.compare_cont Eq m m) with (Pos.compare m m);
    now rewrite Pos.compare_refl.
Qed.

Lemma dlt_trans (a b c : double) :
  dlt a b = true -> dlt b c = true -> dlt a c = true.
Proof. order_crush. Qed.

(** [a < b] and not [c < b] give [a < c], unless [c] is a NaN. *)
Lemma dlt_below (a b c : double) :
  is_nan c = false -> dlt a b = true -> dlt c b = false -> dlt a c = true.
Proof. order_crush. Qed.

(** ** The loop control of the heading search *)

(** The four headings: 0 and the [float]s nearest to 0.05, 0.1 and 0.15. *)
Lemma headings_values :
  headings =
    [S754_zero false;
     S754_finite false 13421773 (-28);
     S754_finite false 13421773 (-27);
     S754_finite false 10066330 (-26)].
Proof. vm_compute. reflexivity. Qed.

(** The loop leaves by its test after four iterations, whatever fuel is
    left: the fifth value of [yaw], the [float] nearest to 0.2, is not
    below the [double] 0.2. *)
Lemma yaw_values_enough (n : nat) :
  yaw_values (5 + n) (float_of_Z 0) = Some headings.
Proof. vm_compute. reflexivity. Qed.

Lemma fifth_yaw_not_below :
  yaw_lt_bound (yaw_next (yaw_next (yaw_next (yaw_next (float_of_Z 0))))) = false.
Proof. vm_compute. reflexivity. Qed.

Lemma headings_length : List.length headings = 4%nat.
Proof. vm_compute. reflexivity. Qed.

(** ** Machine integers *)

Lemma int_wrap_succ (a : Z) : int_wrap (int_wrap a + 1) = int_wrap (a + 1).
Proof.
  unfold int_wrap.
  replace ((a + 2 ^ 31) mod 2 ^ 32 - 2 ^ 31 + 1 + 2 ^ 31)
    with ((a + 2 ^ 31) mod 2 ^ 32 + 1) by lia.
  rewrite Zplus_mod_idemp_l. f_equal. f_equal. lia.
Qed.

Lemma int_wrap_small (a : Z) : - 2 ^ 31 <= a <= INT_MAX -> int_wrap a = a.
Proof.
  unfold int_wrap, INT_MAX. intros H.
  rewrite Z.mod_small; lia.
Qed.

(** ** Facts about the node *)

Section NodeFacts.

Context {ext : External}.

(** *** Selection of the best candidate *)

Lemma select_snoc outs o : select (outs ++ [o]) = pick (select outs) o.
Proof. unfold select. now rewrite fold_left_app. Qed.

Lemma first_minimum_keep outs i o x :
  first_minimum outs i o -> dlt (snd x) (snd o) = false ->
  first_minimum (outs ++ [x]) i o.
Proof.
  intros (Hi & Hall & Hbefore) Hx. repeat split.
  - rewrite nth_error_app1; [assumption|]. apply nth_error_Some. congruence.
  - intros j o' Hj.
    destruct (Nat.lt_ge_cases j (List.length outs)) as [Hlt|Hge].
    + rewrite nth_error_app1 in Hj by assumption. eauto.
    + rewrite nth_error_app2 in Hj by assumption.
      destruct (j - List.length outs)%nat as [|k]; simpl in Hj.
      * now inversion Hj; subst.
      * now destruct k.
  - intros j o' Hlt Hj.
    assert (i < List.length outs)%nat by (apply nth_error_Some; congruence).
    rewrite nth_error_app1 in Hj by lia. eauto.
Qed.

Lemma first_minimum_new outs x :
  is_nan (snd x) = false ->
  (forall o', In o' outs -> is_nan (snd o') = false) ->
  (forall o', In o' outs ->
              exists b, dlt (snd x) b = true /\ dlt (snd o') b = false) ->
  first_minimum (outs ++ [x]) (List.length outs) x.
Proof.
  intros Hx Hnan Hb. repeat split.
  - rewrite nth_error_app2 by lia. now rewrite Nat.sub_diag.
  - intros j o' Hj.
    destruct (Nat.lt_ge_cases j (List.length outs)) as [Hlt|Hge].
    + rewrite nth_error_app1 in Hj by assumption.
      apply nth_error_In in Hj. destruct (Hb _ Hj) as (b & H1 & H2).
      apply not_true_is_false. intros E.
      rewrite (dlt_trans _ _ _ E H1) in H2. discriminate.
    + rewrite nth_error_app2 in Hj by assumption.
      destruct (j - List.length outs)%nat as [|k]; simpl in Hj.
      * inversion Hj; subst. apply dlt_irrefl.
      * now destruct k.
  - intros j o' Hlt Hj. rewrite nth_error_app1 in Hj by assumption.
    apply nth_error_In in Hj. destruct (Hb _ Hj) as (b & H1 & H2).
    eapply dlt_below; eauto.
Qed.

Lemma narrowing_harmless_snoc outs x :
  narrowing_harmless (outs ++ [x]) ->
  narrowing_harmless outs
  /\ Forall (fun o => dlt (snd x) (narrowed (snd o)) = dlt (snd x) (snd o)) outs.
Proof.
  induction outs as [|o outs IH]; simpl.
  - intros _. split; [exact I|constructor].
  - intros [Ho Hrest]. apply Forall_app in Ho. destruct Ho as [Ho Hx].
    destruct (IH Hrest) as [IH1 IH2]. inversion Hx; subst.
    repeat split; auto.
Qed.

(** Either no score was below [FLT_MAX] and the initial pair is kept, or
    the pair holds the first minimum. *)
Lemma select_spec outs :
  Forall (fun o => is_nan (snd o) = false) outs ->
  narrowing_harmless outs ->
  (fst (select outs) = FLT_MAX /\ snd (select outs) = Identity
   /\ Forall (fun o => dlt (snd o) (double_of_float FLT_MAX) = false) outs)
  \/ (exists i o, first_minimum outs i o /\ snd (select outs) = fst o
                  /\ fst (select outs) = float_of_double (snd o)).
Proof.
  induction outs as [|x outs IH] using rev_ind; intros Hok Hh.
  - left. repeat split. constructor.
  - apply Forall_app in Hok. destruct Hok as [Hok Hx].
    inversion Hx as [|? ? Hnan _]; subst.
    apply narrowing_harmless_snoc in Hh. destruct Hh as [Hh Hcmp].
    assert (Hnans : forall o', In o' outs -> is_nan (snd o') = false).
    { intros o' Hin. rewrite Forall_forall in Hok. now apply Hok. }
    rewrite select_snoc. unfold pick.
    destruct (IH Hok Hh) as [(Hm & Hp & Hnone)|(i & o & Hmin & Hp & Hm)].
    + rewrite Hm. destruct (dlt (snd x) (double_of_float FLT_MAX)) eqn:E.
      * right. exists (List.length outs), x. simpl. split; [|split; auto].
        apply first_minimum_new; auto. intros o' Hin.
        exists (double_of_float FLT_MAX). split; auto.
        rewrite Forall_forall in Hnone. now apply Hnone.
      * left. rewrite Hm, Hp. repeat split. apply Forall_app. split; auto.
    + assert (Ho : In o outs).
      { destruct Hmin as (Hi & _). eapply nth_error_In; eassumption. }
      rewrite Forall_forall in Hcmp. specialize (Hcmp _ Ho).
      unfold narrowed in Hcmp. rewrite Hm, Hcmp.
      destruct (dlt (snd x) (snd o)) eqn:E.
      * right. exists (List.length outs), x. simpl. split; [|split; auto].
        apply first_minimum_new; auto. intros o' Hin.
        exists (snd o). split; auto.
        destruct Hmin as (_ & Hall & _).
        apply In_nth_error in Hin. destruct Hin as [j Hj]. eauto.
      * right. exists i, o. split; [|split; auto].
        now apply first_minimum_keep.
Qed.

(** *** Views of a trace *)

Lemma registrations_app a b :
  registrations (a ++ b) = registrations a ++ registrations b.
Proof. apply flat_map_app. Qed.

Lemma boot_calls_app a b : boot_calls (a ++ b) = boot_calls a ++ boot_calls b.
Proof.
  unfold boot_calls, boot_calls_of. rewrite registrations_app.
  apply flat_map_app.
Qed.

Lemma track_calls_app a b : track_calls (a ++ b) = track_calls a ++ track_calls b.
Proof.
  unfold track_calls, track_calls_of. rewrite registrations_app.
  apply flat_map_app.
Qed.

Lemma latest_of_app a b : latest_of (a ++ b) = fold_left note b (latest_of a).
Proof. unfold latest_of. apply fold_left_app. Qed.

Lemma note_quiet s es :
  Forall (fun e => is_callback e = false) es -> fold_left note es s = s.
Proof.
  induction 1 as [|e es He _ IH]; [reflexivity|].
  simpl. destruct e; try discriminate; exact IH.
Qed.

Lemma sound_app leaf s a b :
  sound leaf s (a ++ b) <-> sound leaf s a /\ sound leaf (fold_left note a s) b.
Proof.
  revert s. induction a as [|e a IH]; intros s; simpl.
  - tauto.
  - rewrite IH. tauto.
Qed.

Lemma sound_quiet leaf s es :
  Forall (fun e => is_callback e = false /\ grounded leaf s e) es ->
  sound leaf s es.
Proof.
  induction 1 as [|e es [Hq Hg] _ IH]; simpl; [exact I|].
  split; [exact Hg|]. destruct e; try discriminate; exact IH.
Qed.

(** A sound trace grounds each of its entries in what precedes it. *)
Lemma sound_split leaf pre e post :
  sound leaf {| latest_map := None; latest_fix := None |} (pre ++ e :: post) ->
  grounded leaf (latest_of pre) e.
Proof.
  intros H. apply sound_app in H. destruct H as [_ [H _]]. exact H.
Qed.

(** *** The heading search *)

#[local] Opaque headings FLT_MAX int_wrap.

Lemma search_fold_pick src tgt gps ys s :
  let s' := fold_left (search_body src tgt gps) ys s in
  (min_score s', min_pose s')
  = fold_left pick (map (fun y => boot_out (boot_call src tgt gps y)) ys)
              (min_score s, min_pose s).
Proof.
  revert s. induction ys as [|y ys IH]; intros s; simpl; [reflexivity|].
  rewrite IH. f_equal.
  unfold search_body, pick, boot_out, boot_call; simpl.
  destruct (dlt _ _); reflexivity.
Qed.

Lemma heading_search_select src tgt gps g0 :
  min_pose (heading_search src tgt gps g0)
  = snd (select (map (fun y => boot_out (boot_call src tgt gps y)) headings)).
Proof.
  unfold heading_search, select.
  set (s0 := {| s_init_guess := g0; min_score := FLT_MAX;
                min_pose := Identity; s_log := [] |}).
  change (FLT_MAX, Identity) with (min_score s0, min_pose s0).
  rewrite <- search_fold_pick. reflexivity.
Qed.

Lemma search_fold_log src tgt gps ys s :
  exists said,
    s_log (fold_left (search_body src tgt gps) ys s) = s_log s ++ said
    /\ registrations said = map (fun y => Boot (boot_call src tgt gps y)) ys
    /\ Forall (fun e => is_callback e = false
                        /\ match e with
                           | FirstIcpAlign b =>
                               exists y, In y ys /\ b = boot_call src tgt gps y
                           | IcpAlign _ => False
                           | _ => True
                           end) said.
Proof.
  revert s. induction ys as [|y ys IH]; intros s; simpl.
  - exists []. rewrite app_nil_r. repeat split. constructor.
  - destruct (IH (search_body src tgt gps s y)) as (said & Hlog & Hreg & Hall).
    assert (Hweak :
      Forall (fun e => is_callback e = false
                       /\ match e with
                          | FirstIcpAlign b =>
                              exists y0, (y = y0 \/ In y0 ys)
                                         /\ b = boot_call src tgt gps y0
                          | IcpAlign _ => False
                          | _ => True
                          end) said).
    { eapply Forall_impl; [|exact Hall]. intros e [Hq He]. split; [exact Hq|].
      destruct e; auto. destruct He as (y0 & Hin & Hb). eauto. }
    rewrite Hlog. unfold search_body at 1.
    destruct (dlt _ _); simpl s_log; rewrite <- !app_assoc; eexists;
      (split; [reflexivity|]); split.
    + simpl. now rewrite Hreg.
    + repeat (constructor; [split; [reflexivity|]; simpl; eauto|]).
      exact Hweak.
    + simpl. now rewrite Hreg.
    + repeat (constructor; [split; [reflexivity|]; simpl; eauto|]).
      exact Hweak.
Qed.

(** *** One processed scan *)

Lemma pc_process_state msg st :
  let fs := voxel_filter (scanLeafSize st) (fromROSMsg msg) in
  let fm := voxel_filter (mapLeafSize st) (map_points st) in
  let bs := if initialied st then []
            else map (boot_call fs fm (gps_point st)) headings in
  let g := if initialied st then init_guess st
           else snd (select (map boot_out bs)) in
  let c := {| source := fs; target := fm; guess := g |} in
  let id := int_wrap (cnt st + 1) in
  let tf_p := map_to_car (car2Lidar st) (fst (track_out c)) in
  let st' := fst (pc_process msg st) in
  mapLeafSize st' = mapLeafSize st /\ scanLeafSize st' = scanLeafSize st
  /\ map_points st' = map_points st /\ gps_point st' = gps_point st
  /\ gps_ready st' = gps_ready st /\ map_ready st' = map_ready st
  /\ car2Lidar st' = car2Lidar st /\ outfile_is_open st' = outfile_is_open st
  /\ initialied st' = true
  /\ init_guess st' = fst (track_out c)
  /\ cnt st' = id
  /\ localization_score st' = dadd (localization_score st) (snd (track_out c))
  /\ outfile st'
     = insert_line (outfile_is_open st) (outfile st)
                   (Row id (affine_translation tf_p) (getEulerYPR tf_p)).
Proof.
  unfold pc_process, align_map, find_initial_guess.
  destruct (initialied st) eqn:Hinit; simpl;
    rewrite ?heading_search_select, ?Hinit; repeat split.
Qed.

Lemma pc_process_trace msg st :
  let fs := voxel_filter (scanLeafSize st) (fromROSMsg msg) in
  let fm := voxel_filter (mapLeafSize st) (map_points st) in
  let bs := if initialied st then []
            else map (boot_call fs fm (gps_point st)) headings in
  let g := if initialied st then init_guess st
           else snd (select (map boot_out bs)) in
  let c := {| source := fs; target := fm; guess := g |} in
  let said := snd (pc_process msg st) in
  registrations said = map Boot bs ++ [Track c]
  /\ Forall (fun e => is_callback e = false
                      /\ match e with
                         | FirstIcpAlign b => In b bs
                         | IcpAlign t => t = c
                         | _ => True
                         end) said.
Proof.
  unfold pc_process, align_map, find_initial_guess.
  destruct (initialied st) eqn:Hinit; simpl.
  - split; [destruct (_ =? 396); reflexivity|].
    repeat (constructor; [split; [reflexivity|]; simpl; auto|]).
    destruct (_ =? 396); repeat constructor.
  - rewrite heading_search_select. unfold heading_search.
    destruct (search_fold_log
                (voxel_filter (scanLeafSize st) (fromROSMsg msg))
                (voxel_filter (mapLeafSize st) (map_points st))
                (gps_point st) headings
                {| s_init_guess := init_guess st; min_score := FLT_MAX;
                   min_pose := Identity; s_log := [] |})
      as (said & Hlog & Hreg & Hall).
    simpl in Hlog. rewrite Hlog. split.
    + rewrite !registrations_app, Hreg, map_map. simpl.
      destruct (_ =? 396); simpl; rewrite ?app_nil_r; reflexivity.
    + rewrite <- !app_assoc. apply Forall_app. split.
      * eapply Forall_impl; [|exact Hall]. intros e [Hq He]. split; [exact Hq|].
        destruct e; auto; [|contradiction].
        destruct He as (y & Hin & Hb). subst. now apply in_map.
      * simpl.
        repeat (constructor; [split; [reflexivity|]; simpl; auto|]).
        destruct (_ =? 396); repeat constructor.
Qed.

(** *** Runs of the event loop *)

Lemma spin_cons d rest st :
  spin (d :: rest) st
  = match callback d st with
    | None => None
    | Some (st1, said1) =>
        match spin rest st1 with
        | None => None
        | Some (st2, said2) => Some (st2, said1 ++ said2)
        end
    end.
Proof. reflexivity. Qed.

Lemma callback_scan msg polls st :
  callback (Scan msg polls) st = pc_callback msg polls st.
Proof. reflexivity. Qed.

Lemma wait_ready_ready polls st :
  gps_ready st && map_ready st = true -> wait_ready polls st = Some (st, []).
Proof.
  intros H. unfold wait_ready. destruct polls; simpl; now rewrite H.
Qed.

Lemma wait_ready_cons pending later st :
  gps_ready st && map_ready st = false ->
  wait_ready (pending :: later) st
  = match spinOnce pending st with
    | None => None
    | Some (st1, said1) =>
        match wait_ready later st1 with
        | None => None
        | Some (st2, said2) => Some (st2, warnings st ++ said1 ++ said2)
        end
    end.
Proof. intros H. unfold wait_ready. simpl. now rewrite H. Qed.

Lemma wait_ready_nil st :
  gps_ready st && map_ready st = false -> wait_ready [] st = None.
Proof. intros H. unfold wait_ready. simpl. now rewrite H. Qed.

(** Induction on a run that ends: a property of the callbacks that holds
    for map and position messages and is carried through the polls of a
    waiting loop holds for every delivery. *)
Section Run.

Variable P : delivery -> Localizer -> Localizer -> list effect -> Prop.
Variable Q : list delivery -> Localizer -> Localizer -> list effect -> Prop.
Variable W : list (list delivery) -> Localizer -> Localizer -> list effect
             -> Prop.

Hypothesis P_feed : forall f st,
    P (Deliver f) st (fst (dispatch f st)) (snd (dispatch f st)).
Hypothesis P_scan : forall msg polls st st1 said1,
    wait_ready polls st = Some (st1, said1) ->
    gps_ready st1 = true -> map_ready st1 = true ->
    W polls st st1 said1 ->
    P (Scan msg polls) st (fst (pc_process msg st1))
      (said1 ++ snd (pc_process msg st1)).
Hypothesis Q_nil : forall st, Q [] st st [].
Hypothesis Q_cons : forall d rest st st1 said1 st2 said2,
    callback d st = Some (st1, said1) -> spin rest st1 = Some (st2, said2) ->
    P d st st1 said1 -> Q rest st1 st2 said2 ->
    Q (d :: rest) st st2 (said1 ++ said2).
Hypothesis W_ready : forall polls st,
    gps_ready st && map_ready st = true -> W polls st st [].
Hypothesis W_wait : forall pending later st st1 said1 st2 said2,
    gps_ready st && map_ready st = false ->
    spinOnce pending st = Some (st1, said1) ->
    wait_ready later st1 = Some (st2, said2) ->
    Q pending st st1 said1 -> W later st1 st2 said2 ->
    W (pending :: later) st st2 (warnings st ++ said1 ++ said2).

Let P_holds (d : delivery) : Prop :=
  forall st st' said, callback d st = Some (st', said) -> P d st st' said.

Lemma available_run pending :
  Forall P_holds pending ->
  forall st st' said,
    spin pending st = Some (st', said) -> Q pending st st' said.
Proof.
  induction 1 as [|d rest Hd _ IH]; intros st st' said Hs.
  - inversion Hs; subst. apply Q_nil.
  - rewrite spin_cons in Hs.
    destruct (callback d st) as [[st1 said1]|] eqn:Hc; [|discriminate].
    destruct (spin rest st1) as [[st2 said2]|] eqn:Hr; [|discriminate].
    inversion Hs; subst. eapply Q_cons; eauto.
Qed.

Lemma loop_run polls :
  Forall (Forall P_holds) polls ->
  forall st st' said,
    wait_ready polls st = Some (st', said) ->
    W polls st st' said /\ gps_ready st' = true /\ map_ready st' = true.
Proof.
  induction 1 as [|pending later Hp _ IH]; intros st st' said Hw;
    destruct (gps_ready st && map_ready st) eqn:Hready.
  - rewrite wait_ready_ready in Hw by assumption. inversion Hw; subst.
    split; [now apply W_ready|apply andb_prop in Hready; tauto].
  - now rewrite wait_ready_nil in Hw.
  - rewrite wait_ready_ready in Hw by assumption. inversion Hw; subst.
    split; [now apply W_ready|apply andb_prop in Hready; tauto].
  - rewrite wait_ready_cons in Hw by assumption.
    destruct (spinOnce pending st) as [[st1 said1]|] eqn:Hs; [|discriminate].
    destruct (wait_ready later st1) as [[st2 said2]|] eqn:Hl; [|discriminate].
    inversion Hw; subst.
    destruct (IH _ _ _ Hl) as (HW & Hg & Hm).
    split; [|tauto]. eapply W_wait; eauto.
    now apply available_run.
Qed.

Lemma callback_run d : P_holds d.
Proof.
  induction d as [f|msg polls IH] using delivery_nested_ind;
    intros st st' said Hc.
  - simpl in Hc. inversion Hc as [E].
    pose proof (P_feed f st) as HP. now rewrite E in HP.
  - rewrite callback_scan in Hc. unfold pc_callback in Hc.
    destruct (wait_ready polls st) as [[st1 said1]|] eqn:Hw; [|discriminate].
    destruct (loop_run polls IH _ _ _ Hw) as (HW & Hg & Hm).
    pose proof (P_scan msg _ _ _ _ Hw Hg Hm HW) as HP.
    destruct (pc_process msg st1) as [st2 said2]. inversion Hc; subst.
    exact HP.
Qed.

Lemma spin_run ds st st' said :
  spin ds st = Some (st', said) -> Q ds st st' said.
Proof.
  apply available_run. apply Forall_forall. intros d _. apply callback_run.
Qed.

Lemma wait_ready_run polls st st' said :
  wait_ready polls st = Some (st', said) ->
  W polls st st' said /\ gps_ready st' = true /\ map_ready st' = true.
Proof.
  apply loop_run. apply Forall_forall. intros p _.
  apply Forall_forall. intros d _. apply callback_run.
Qed.

End Run.

(** *** The flags along a run *)

Lemma dispatch_flags_of f st :
  flags_of (fst (dispatch f st)) = flag_feed f (flags_of st).
Proof.
  destruct f; unfold flags_of; simpl; [reflexivity|].
  unfold gps_callback. now destruct (initialied st).
Qed.

Lemma visit_loop_ready visit polls r :
  fst r && snd r = true -> visit_loop visit polls r = ([], r).
Proof. intros H. destruct polls; simpl; now rewrite H. Qed.

Lemma visit_loop_cons visit pending later r :
  fst r && snd r = false ->
  visit_loop visit (pending :: later) r
  = (fst (visit_available visit pending r)
       ++ fst (visit_loop visit later (snd (visit_available visit pending r))),
     snd (visit_loop visit later (snd (visit_available visit pending r)))).
Proof.
  intros H. simpl. rewrite H.
  destruct (visit_available visit pending r) as [a r1]. simpl.
  now destruct (visit_loop visit later r1).
Qed.

Lemma visit_available_cons visit d rest r :
  visit_available visit (d :: rest) r
  = (fst (visit d r) ++ fst (visit_available visit rest (snd (visit d r))),
     snd (visit_available visit rest (snd (visit d r)))).
Proof.
  simpl. destruct (visit d r) as [a r1]. simpl.
  now destruct (visit_available visit rest r1).
Qed.

Lemma visit_scan place msg polls r :
  visit place (Scan msg polls) r
  = (place msg (fst (visit_loop (visit place) polls r)),
     snd (visit_loop (visit place) polls r)).
Proof. simpl. now destruct (visit_loop (visit place) polls r). Qed.

Lemma pc_process_flags msg st :
  flags_of (fst (pc_process msg st)) = flags_of st.
Proof.
  pose proof (pc_process_state msg st) as H. cbv zeta in H.
  unfold flags_of. now f_equal.
Qed.

Lemma run_flags place :
  (forall d st st' said,
      callback d st = Some (st', said) ->
      flags_of st' = snd (visit place d (flags_of st)))
  /\ (forall ds st st' said,
         spin ds st = Some (st', said) ->
         flags_of st' = snd (visit_available (visit place) ds (flags_of st)))
  /\ (forall polls st st' said,
         wait_ready polls st = Some (st', said) ->
         flags_of st' = snd (visit_loop (visit place) polls (flags_of st))).
Proof.
  set (P := fun d st st' (_ : list effect) =>
              flags_of st' = snd (visit place d (flags_of st))).
  set (Q := fun ds st st' (_ : list effect) =>
              flags_of st'
              = snd (visit_available (visit place) ds (flags_of st))).
  set (W := fun polls st st' (_ : list effect) =>
              flags_of st'
              = snd (visit_loop (visit place) polls (flags_of st))).
  assert (P_feed : forall f st,
             P (Deliver f) st (fst (dispatch f st)) (snd (dispatch f st))).
  { intros f st. apply dispatch_flags_of. }
  assert (P_scan : forall msg polls st st1 said1,
             wait_ready polls st = Some (st1, said1) ->
             gps_ready st1 = true -> map_ready st1 = true ->
             W polls st st1 said1 ->
             P (Scan msg polls) st (fst (pc_process msg st1))
               (said1 ++ snd (pc_process msg st1))).
  { intros msg polls st st1 said1 _ _ _ HW. unfold P, W in *.
    now rewrite pc_process_flags, visit_scan. }
  assert (Q_nil : forall st, Q [] st st []) by reflexivity.
  assert (Q_cons : forall d rest st st1 said1 st2 said2,
             callback d st = Some (st1, said1) ->
             spin rest st1 = Some (st2, said2) ->
             P d st st1 said1 -> Q rest st1 st2 said2 ->
             Q (d :: rest) st st2 (said1 ++ said2)).
  { intros d rest st st1 said1 st2 said2 _ _ HP HQ. unfold P, Q in *.
    rewrite visit_available_cons. simpl. now rewrite <- HP. }
  assert (W_ready : forall polls st,
             gps_ready st && map_ready st = true -> W polls st st []).
  { intros polls st H. unfold W. now rewrite visit_loop_ready. }
  assert (W_wait : forall pending later st st1 said1 st2 said2,
             gps_ready st && map_ready st = false ->
             spinOnce pending st = Some (st1, said1) ->
             wait_ready later st1 = Some (st2, said2) ->
             Q pending st st1 said1 -> W later st1 st2 said2 ->
             W (pending :: later) st st2 (warnings st ++ said1 ++ said2)).
  { intros pending later st st1 said1 st2 said2 H _ _ HQ HW.
    unfold Q, W in *. rewrite visit_loop_cons by exact H. simpl.
    now rewrite <- HQ. }
  split; [|split].
  - intros d st st' said. now apply (callback_run P Q W).
  - intros ds st st' said. now apply (spin_run P Q W).
  - intros polls st st' said Hw.
    exact (proj1 (wait_ready_run P Q W P_feed P_scan Q_nil Q_cons W_ready
                                 W_wait _ _ _ _ Hw)).
Qed.

(** *** Invariants of the event loop *)

Section InvariantOfScans.

Variable Inv : list PointCloud2 -> Localizer -> list effect -> Prop.

Hypothesis Inv_dispatch : forall ms st h f,
    Inv ms st h -> Inv ms (fst (dispatch f st)) (h ++ snd (dispatch f st)).
Hypothesis Inv_warn_map : forall ms st h,
    Inv ms st h -> gps_ready st = true -> map_ready st = false ->
    Inv ms st (h ++ [ROS_LOG WARN waiting_for_map_data]).
Hypothesis Inv_warn_gps : forall ms st h,
    Inv ms st h -> map_ready st = true -> gps_ready st = false ->
    Inv ms st (h ++ [ROS_LOG WARN waiting_for_gps_data]).
Hypothesis Inv_scan : forall ms st h msg,
    Inv ms st h -> gps_ready st = true -> map_ready st = true ->
    Inv (ms ++ [msg]) (fst (pc_process msg st)) (h ++ snd (pc_process msg st)).

Lemma Inv_warnings ms st h :
  Inv ms st h -> gps_ready st && map_ready st = false ->
  Inv ms st (h ++ warnings st).
Proof.
  intros HI H. unfold warnings.
  destruct (gps_ready st) eqn:Hg, (map_ready st) eqn:Hm; simpl;
    rewrite ?app_nil_r; auto. discriminate.
Qed.

Lemma run_invariant :
  (forall d st st' said,
      callback d st = Some (st', said) ->
      forall ms h, Inv ms st h ->
                   Inv (ms ++ fst (visit leaving d (flags_of st))) st' (h ++ said))
  /\ (forall ds st st' said,
         spin ds st = Some (st', said) ->
         forall ms h, Inv ms st h ->
                      Inv (ms ++ scans_from st ds) st' (h ++ said))
  /\ (forall polls st st' said,
         wait_ready polls st = Some (st', said) ->
         forall ms h,
           Inv ms st h ->
           Inv (ms ++ fst (visit_loop (visit leaving) polls (flags_of st))) st'
               (h ++ said)).
Proof.
  set (P := fun d st st' said =>
              forall ms h,
                Inv ms st h ->
                Inv (ms ++ fst (visit leaving d (flags_of st))) st' (h ++ said)).
  set (Q := fun ds st st' said =>
              forall ms h,
                Inv ms st h -> Inv (ms ++ scans_from st ds) st' (h ++ said)).
  set (W := fun polls st st' said =>
              forall ms h,
                Inv ms st h ->
                Inv (ms ++ fst (visit_loop (visit leaving) polls (flags_of st)))
                    st' (h ++ said)).
  assert (P_feed : forall f st,
             P (Deliver f) st (fst (dispatch f st)) (snd (dispatch f st))).
  { intros f st ms h HI. simpl. rewrite app_nil_r. now apply Inv_dispatch. }
  assert (P_scan : forall msg polls st st1 said1,
             wait_ready polls st = Some (st1, said1) ->
             gps_ready st1 = true -> map_ready st1 = true ->
             W polls st st1 said1 ->
             P (Scan msg polls) st (fst (pc_process msg st1))
               (said1 ++ snd (pc_process msg st1))).
  { intros msg polls st st1 said1 _ Hg Hm HW ms h HI.
    rewrite visit_scan. simpl. unfold leaving. rewrite !app_assoc.
    apply Inv_scan; auto. }
  assert (Q_nil : forall st, Q [] st st []).
  { intros st ms h HI. unfold scans_from. simpl. now rewrite !app_nil_r. }
  assert (Q_cons : forall d rest st st1 said1 st2 said2,
             callback d st = Some (st1, said1) ->
             spin rest st1 = Some (st2, said2) ->
             P d st st1 said1 -> Q rest st1 st2 said2 ->
             Q (d :: rest) st st2 (said1 ++ said2)).
  { intros d rest st st1 said1 st2 said2 Hc _ HP HQ ms h HI.
    unfold scans_from. rewrite visit_available_cons. simpl.
    rewrite <- (proj1 (run_flags leaving) _ _ _ _ Hc), !app_assoc.
    apply HQ, HP, HI. }
  assert (W_ready : forall polls st,
             gps_ready st && map_ready st = true -> W polls st st []).
  { intros polls st H ms h HI. rewrite visit_loop_ready by exact H.
    simpl. now rewrite !app_nil_r. }
  assert (W_wait : forall pending later st st1 said1 st2 said2,
             gps_ready st && map_ready st = false ->
             spinOnce pending st = Some (st1, said1) ->
             wait_ready later st1 = Some (st2, said2) ->
             Q pending st st1 said1 -> W later st1 st2 said2 ->
             W (pending :: later) st st2 (warnings st ++ said1 ++ said2)).
  { intros pending later st st1 said1 st2 said2 H Hs _ HQ HW ms h HI.
    rewrite visit_loop_cons by exact H. simpl.
    rewrite <- (proj1 (proj2 (run_flags leaving)) _ _ _ _ Hs), !app_assoc.
    apply HW, HQ. now apply Inv_warnings. }
  split; [|split].
  - intros d st st' said. now apply (callback_run P Q W).
  - intros ds st st' said. now apply (spin_run P Q W).
  - intros polls st st' said Hw.
    exact (proj1 (wait_ready_run P Q W P_feed P_scan Q_nil Q_cons W_ready
                                 W_wait _ _ _ _ Hw)).
Qed.

End InvariantOfScans.

Section Invariant.

Variable Inv : list PointCloud2 -> Localizer -> list effect -> Prop.

Hypothesis Inv_dispatch : forall ms st h f,
    Inv ms st h -> Inv ms (fst (dispatch f st)) (h ++ snd (dispatch f st)).
Hypothesis Inv_warn : forall ms st h l,
    Inv ms st h -> Inv ms st (h ++ [ROS_LOG WARN l]).
Hypothesis Inv_scan : forall ms st h msg,
    Inv ms st h -> gps_ready st = true -> map_ready st = true ->
    Inv (ms ++ [msg]) (fst (pc_process msg st)) (h ++ snd (pc_process msg st)).

Lemma spin_invariant ds : forall ms st h st' said,
    Inv ms st h -> spin ds st = Some (st', said) ->
    Inv (ms ++ scans_from st ds) st' (h ++ said).
Proof.
  intros ms st h st' said HI Hs.
  refine (proj1 (proj2 (run_invariant Inv Inv_dispatch _ _ Inv_scan))
                _ _ _ _ Hs _ _ HI); intros; now apply Inv_warn.
Qed.

End Invariant.

Lemma scans_from_fresh L0 ds : fresh L0 -> scans_from L0 ds = scans ds.
Proof.
  intros (_ & Hg & Hm & _). unfold scans_from, scans, flags_of.
  now rewrite Hg, Hm.
Qed.

(** *** Scans handled one at a time *)

Lemma feeds_available place p :
  forallb is_feed p = true ->
  forall r,
    fst (visit_available (visit place) p r) = []
    /\ snd (visit_available (visit place) p r)
       = snd (visit_available (visit entering) p r).
Proof.
  induction p as [|d p IH]; intros H r; [now split|].
  simpl in H. apply andb_prop in H. destruct H as [Hd Hp].
  destruct d as [f|]; [|discriminate].
  rewrite !visit_available_cons. cbn [visit fst snd app].
  apply (IH Hp).
Qed.

Lemma feeds_loop place polls :
  forallb (forallb is_feed) polls = true ->
  forall r,
    fst (visit_loop (visit place) polls r) = []
    /\ snd (visit_loop (visit place) polls r)
       = snd (visit_loop (visit entering) polls r).
Proof.
  induction polls as [|p polls IH]; intros H r;
    destruct (fst r && snd r) eqn:Hr.
  - rewrite !visit_loop_ready by exact Hr. now split.
  - simpl. rewrite Hr. now split.
  - rewrite !visit_loop_ready by exact Hr. now split.
  - simpl in H. apply andb_prop in H. destruct H as [Hp Hpolls].
    rewrite !visit_loop_cons by exact Hr. cbn [fst snd].
    destruct (feeds_available place p Hp r) as [-> ->].
    apply (IH Hpolls).
Qed.

Lemma scans_in_turn_visit ds :
  scans_in_turn ds = true ->
  forall r,
    visit_available (visit leaving) ds r = visit_available (visit entering) ds r.
Proof.
  unfold scans_in_turn.
  induction ds as [|d ds IH]; intros H r; [reflexivity|].
  simpl in H. apply andb_prop in H. destruct H as [Hd Hds].
  rewrite !visit_available_cons.
  assert (E : visit leaving d r = visit entering d r).
  { destruct d as [f|msg polls]; [reflexivity|]. simpl in Hd.
    rewrite !visit_scan.
    destruct (feeds_loop leaving polls Hd r) as [-> ->].
    destruct (feeds_loop entering polls Hd r) as [-> _]. reflexivity. }
  now rewrite E, (IH Hds).
Qed.

(** When no scan is dispatched while another waits, the scans are
    processed in the order of their arrival. *)
Lemma scans_in_turn_arrivals ds :
  scans_in_turn ds = true -> scans ds = arrivals ds.
Proof.
  intros H. unfold scans, arrivals. now rewrite scans_in_turn_visit.
Qed.

(** *** Chains, rows and totals *)

Lemma chained_app g a b :
  chained g (a ++ b) <-> chained g a /\ chained (final_guess g a) b.
Proof.
  revert g. induction a as [|c a IH]; intros g; simpl.
  - tauto.
  - rewrite IH. tauto.
Qed.

Lemma final_guess_snoc g a c : final_guess g (a ++ [c]) = fst (track_out c).
Proof.
  revert g. induction a as [|c0 a IH]; intros g; simpl; [reflexivity|apply IH].
Qed.

Lemma chained_nth g ts : chained g ts ->
  forall k c c', nth_error ts k = Some c -> nth_error ts (S k) = Some c' ->
                 guess c' = fst (track_out c).
Proof.
  revert g. induction ts as [|t ts IH]; intros g Hc k c c' Hk Hk'.
  - destruct k; discriminate.
  - destruct Hc as [_ Hc]. destruct k as [|k]; simpl in Hk, Hk'.
    + inversion Hk; subst. destruct ts as [|t' ts]; [discriminate|].
      simpl in Hk'. inversion Hk'; subst. now destruct Hc.
    + eapply IH; eauto.
Qed.

Lemma rows_from_app c2l k a b :
  rows_from c2l k (a ++ b)
  = rows_from c2l k a ++ rows_from c2l (k + List.length a) b.
Proof.
  revert k. induction a as [|c a IH]; intros k; simpl.
  - now rewrite Nat.add_0_r.
  - rewrite IH. do 3 f_equal. lia.
Qed.

Lemma rows_from_nth c2l ts : forall k0 k,
  nth_error (rows_from c2l k0 ts) k
  = option_map (row_of c2l (k0 + k)) (nth_error ts k).
Proof.
  induction ts as [|t ts IH]; intros k0 k.
  - now destruct k.
  - destruct k as [|k]; simpl.
    + now rewrite Nat.add_0_r.
    + rewrite IH. do 2 f_equal. lia.
Qed.

Lemma rows_from_ids c2l ts : forall k0,
  map line_id (rows_from c2l k0 ts)
  = map (fun k => Some (int_wrap (Z.of_nat k))) (seq (S k0) (List.length ts)).
Proof.
  induction ts as [|t ts IH]; intros k0; simpl; [reflexivity|].
  now rewrite IH.
Qed.

Lemma total_score_snoc ts c :
  total_score (ts ++ [c]) = dadd (total_score ts) (snd (track_out c)).
Proof. unfold total_score. now rewrite map_app, fold_left_app. Qed.

Lemma calls_of_boots bs :
  boot_calls_of (map Boot bs) = bs /\ track_calls_of (map Boot bs) = [].
Proof.
  induction bs as [|b bs [IH1 IH2]]; simpl; [now split|].
  split; [now rewrite IH1 | exact IH2].
Qed.

Lemma calls_of_tracks ts :
  boot_calls_of (map Track ts) = [] /\ track_calls_of (map Track ts) = ts.
Proof.
  induction ts as [|t ts [IH1 IH2]]; simpl; [now split|].
  split; [exact IH1 | now rewrite IH2].
Qed.

Lemma calls_of_registrations bs ts :
  boot_calls_of (map Boot bs ++ map Track ts) = bs
  /\ track_calls_of (map Boot bs ++ map Track ts) = ts.
Proof.
  destruct (calls_of_boots bs) as [B1 B2].
  destruct (calls_of_tracks ts) as [T1 T2].
  unfold boot_calls_of, track_calls_of in *. rewrite !flat_map_app.
  rewrite B1, B2, T1, T2. now rewrite app_nil_r.
Qed.

Lemma dispatch_registrations f st : registrations (snd (dispatch f st)) = [].
Proof. destruct f; simpl; [reflexivity|]. now destruct (initialied st). Qed.

(** *** The tracking invariant *)

Lemma tracking_start L0 : fresh L0 -> tracking L0 [] L0 [].
Proof.
  intros (Hi & _ & _ & Hc & Hs & Ho). unfold tracking.
  rewrite Hi, Hc, Hs, Ho. repeat split.
Qed.

Lemma tracking_quiet L0 ms st st' h said :
  tracking L0 ms st h ->
  registrations said = [] ->
  mapLeafSize st' = mapLeafSize st -> scanLeafSize st' = scanLeafSize st ->
  car2Lidar st' = car2Lidar st -> outfile_is_open st' = outfile_is_open st ->
  cnt st' = cnt st -> localization_score st' = localization_score st ->
  outfile st' = outfile st -> initialied st' = initialied st ->
  init_guess st' = init_guess st ->
  tracking L0 ms st' (h ++ said).
Proof.
  unfold tracking, track_calls.
  intros H Hq E1 E2 E3 E4 E5 E6 E7 E8 E9.
  rewrite registrations_app, Hq, app_nil_r, E1, E2, E3, E4, E5, E6, E7, E8, E9.
  exact H.
Qed.

Lemma tracking_dispatch L0 ms st h f :
  tracking L0 ms st h ->
  tracking L0 ms (fst (dispatch f st)) (h ++ snd (dispatch f st)).
Proof.
  intros H. eapply tracking_quiet; eauto using dispatch_registrations;
    destruct f; reflexivity.
Qed.

Lemma tracking_scan L0 ms st h msg :
  tracking L0 ms st h ->
  tracking L0 (ms ++ [msg]) (fst (pc_process msg st))
           (h ++ snd (pc_process msg st)).
Proof.
  intros (H1 & H2 & H3 & H4 & H5 & H6 & H7 & H8 & H9).
  pose proof (pc_process_state msg st) as S.
  pose proof (pc_process_trace msg st) as [T _].
  cbv zeta in S, T.
  destruct S as (S1 & S2 & _ & _ & _ & _ & S7 & S8 & S9 & S10 & S11 & S12 & S13).
  set (st' := fst (pc_process msg st)) in *.
  set (said := snd (pc_process msg st)) in *.
  set (fs := voxel_filter (scanLeafSize st) (fromROSMsg msg)) in *.
  set (fm := voxel_filter (mapLeafSize st) (map_points st)) in *.
  set (bs := if initialied st then []
             else map (boot_call fs fm (gps_point st)) headings) in *.
  set (g := if initialied st then init_guess st
            else snd (select (map boot_out bs))) in *.
  set (c := {| source := fs; target := fm; guess := g |}) in *.
  assert (Ht : track_calls said = [c]).
  { unfold track_calls. rewrite T.
    exact (proj2 (calls_of_registrations bs [c])). }
  assert (Hlen : List.length (track_calls h) = List.length ms).
  { rewrite <- (length_map source), H5. apply length_map. }
  unfold tracking.
  rewrite S1, S2, S7, S8, S9, S10, S11, S12, S13.
  rewrite track_calls_app, Ht.
  repeat split; try assumption.
  - rewrite !map_app, H5. simpl. subst fs. now rewrite H2.
  - rewrite H6, int_wrap_succ, length_app. simpl. f_equal. lia.
  - now rewrite total_score_snoc, H7.
  - rewrite H4, H8. unfold insert_line.
    destruct (outfile_is_open L0); [|reflexivity].
    rewrite rows_from_app. simpl. do 2 f_equal.
    unfold row_of. rewrite H3, H6, int_wrap_succ, Hlen. do 3 f_equal. lia.
  - rewrite registrations_app. fold said. rewrite T.
    subst g bs. destruct (initialied st).
    + destruct H9 as (gps & t & ts & R & C & G).
      exists gps, t, (ts ++ [c]). cbv zeta. rewrite R. simpl map at 3.
      split; [|split].
      * rewrite <- app_assoc. simpl. now rewrite map_app.
      * change (t :: ts ++ [c]) with ((t :: ts) ++ [c]).
        apply chained_app. split; [exact C|]. simpl. split; [|exact I].
        rewrite G. reflexivity.
      * change (t :: ts ++ [c]) with ((t :: ts) ++ [c]).
        now rewrite final_guess_snoc.
    + exists (gps_point st), c, []. cbv zeta. rewrite H9. simpl.
      repeat split.
Qed.

Lemma tracking_run L0 ds L tr :
  fresh L0 -> spin ds L0 = Some (L, tr) -> tracking L0 (scans ds) L tr.
Proof.
  intros Hf Hs. rewrite <- (scans_from_fresh L0 ds Hf).
  apply (spin_invariant (tracking L0)) with (ms := []) (h := []) (st := L0);
    auto using tracking_dispatch, tracking_scan, tracking_start.
  intros ms st h l H. eapply tracking_quiet; eauto.
Qed.

(** *** The invariant of the stored map and position *)

Lemma fed_start L0 : fresh L0 -> fed L0 L0 [].
Proof.
  intros (_ & Hg & Hm & _). unfold fed. simpl. rewrite Hg, Hm.
  repeat split; try discriminate.
Qed.

Lemma fed_quiet L0 st st' h said :
  fed L0 st h ->
  Forall (fun e => is_callback e = false
                   /\ grounded (mapLeafSize L0) (latest_of h) e) said ->
  mapLeafSize st' = mapLeafSize st -> map_points st' = map_points st ->
  gps_point st' = gps_point st -> gps_ready st' = gps_ready st ->
  map_ready st' = map_ready st ->
  fed L0 st' (h ++ said).
Proof.
  intros (F1 & F2 & F3 & F4 & F5) Hq E1 E2 E3 E4 E5. unfold fed.
  assert (Hl : latest_of (h ++ said) = latest_of h).
  { rewrite latest_of_app. apply note_quiet.
    eapply Forall_impl; [|exact Hq]. now intros e [He _]. }
  rewrite Hl, E1, E2, E3, E4, E5. repeat split; try assumption.
  apply sound_app. split; [exact F5|]. now apply sound_quiet.
Qed.

Lemma fed_dispatch L0 st h f :
  fed L0 st h -> fed L0 (fst (dispatch f st)) (h ++ snd (dispatch f st)).
Proof.
  intros (F1 & F2 & F3 & F4 & F5). unfold fed.
  destruct f as [m|p]; simpl fst; simpl snd.
  - rewrite latest_of_app. simpl. repeat split; try assumption.
    + discriminate.
    + apply sound_app. split; [exact F5|]. simpl. auto.
  - assert (Hl : latest_of (h ++ GpsCallback p ::
                              (if negb (initialied st)
                               then [PublishGpsPose p; SendGpsTransform p]
                               else []))
                 = note (latest_of h) (GpsCallback p)).
    { rewrite latest_of_app. now destruct (initialied st). }
    rewrite Hl. simpl. repeat split; try assumption.
    + intros _. eauto.
    + apply sound_app. split; [exact F5|].
      destruct (initialied st); simpl; auto.
Qed.

Lemma fed_scan L0 st h msg :
  fed L0 st h -> gps_ready st = true -> map_ready st = true ->
  fed L0 (fst (pc_process msg st)) (h ++ snd (pc_process msg st)).
Proof.
  intros F Hg Hm.
  pose proof (pc_process_state msg st) as S.
  pose proof (pc_process_trace msg st) as [_ T].
  cbv zeta in S, T.
  destruct S as (S1 & _ & S3 & S4 & S5 & S6 & _).
  apply (fed_quiet L0 st _ h _ F); try assumption.
  destruct F as (F1 & F2 & F3 & F4 & F5).
  destruct (F4 Hg) as (p & Hp & Hgps).
  destruct (latest_map (latest_of h)) as [m|] eqn:Hmap;
    [|now exfalso; apply (F3 Hm)].
  eapply Forall_impl; [|exact T]. intros e [Hq He]. split; [exact Hq|].
  destruct e; try exact I.
  - destruct (initialied st); [contradiction|].
    cbv iota in He.
    apply (proj1 (in_map_iff _ _ _)) in He.
    destruct He as (yaw & Hb & Hin). subst c.
    exists m, p, yaw.
    unfold boot_call; cbn [target guess]. rewrite F1, F2, Hgps.
    split; [assumption|split; [assumption|split; [exact Hin|split; reflexivity]]].
  - subst c. exists m. cbn [target]. rewrite F1, F2. split; [assumption|reflexivity].
Qed.

Lemma fed_run L0 ds L tr :
  fresh L0 -> spin ds L0 = Some (L, tr) -> fed L0 L tr.
Proof.
  intros Hf Hs.
  refine (spin_invariant (fun _ => fed L0) _ _ _
                         ds [] L0 [] L tr (fed_start _ Hf) Hs).
  - intros _ st h f. apply fed_dispatch.
  - intros _ st h l H. eapply fed_quiet; eauto.
    constructor; [|constructor]. split; [reflexivity|exact I].
  - intros _ st h msg. apply fed_scan.
Qed.

(** *** The constructor *)

Lemma Localizer_new_fresh ps open_ok log L0 :
  Localizer_new ps open_ok = (log, Returns L0) ->
  fresh L0 /\ outfile_is_open L0 = open_ok /\ map_points L0 = empty_cloud.
Proof.
  unfold Localizer_new, bind.
  repeat match goal with
         | |- context [match at_ ?v ?i with _ => _ end] => destruct (at_ v i)
         end; intros H; inversion H; subst; try discriminate.
  unfold fresh. simpl. repeat split.
Qed.

Lemma final_guess_last g ts c :
  nth_error ts (pred (List.length ts)) = Some c ->
  final_guess g ts = fst (track_out c).
Proof.
  intros H. destruct (exists_last (l := ts)) as (a & c0 & ->).
  { intros ->. discriminate. }
  rewrite final_guess_snoc. rewrite length_app in H. simpl in H.
  rewrite nth_error_app2 in H by lia.
  replace (pred (List.length a + 1) - List.length a)%nat with 0%nat in H by lia.
  simpl in H. now inversion H.
Qed.

Lemma tracking_length L0 ms st h :
  tracking L0 ms st h -> List.length (track_calls h) = List.length ms.
Proof.
  intros (_ & _ & _ & _ & H & _).
  rewrite <- (length_map source), H. apply length_map.
Qed.

(** *** Warm start

    Claim C2, amended.  The steady-state registrations of a run are one per
    scan, in the order in which the scans leave the waiting loop and are
    processed; the first takes the best pose of the heading search as its
    initial guess, each later one takes the transform returned for the scan
    processed before it, unmodified, and the [init_guess] the node holds
    after the last one is the transform returned for it.  The scans are
    processed in the order of their arrival when none of them is dispatched
    while another waits for the map and the position. *)
Theorem warm_start ps open_ok log L0 ds L tr :
  Localizer_new ps open_ok = (log, Returns L0) ->
  spin ds L0 = Some (L, tr) ->
  let ts := track_calls tr in
  map source ts
  = map (fun m => voxel_filter (scanLeafSize L0) (fromROSMsg m)) (scans ds)
  /\ (forall c, nth_error ts 0 = Some c ->
                guess c = snd (select (map boot_out (boot_calls tr))))
  /\ (forall k c c', nth_error ts k = Some c -> nth_error ts (S k) = Some c' ->
                     guess c' = fst (track_out c))
  /\ (forall c, nth_error ts (pred (List.length ts)) = Some c ->
                init_guess L = fst (track_out c))
  /\ (scans_in_turn ds = true -> scans ds = arrivals ds).
Proof.
  intros Hnew Hspin ts.
  destruct (Localizer_new_fresh _ _ _ _ Hnew) as (Hf & _).
  pose proof (tracking_run _ _ _ _ Hf Hspin)
    as (_ & _ & _ & _ & Hsrc & _ & _ & _ & Hreg).
  split; [exact Hsrc|].
  rewrite <- and_assoc, <- and_assoc.
  split; [rewrite !and_assoc|apply scans_in_turn_arrivals].
  subst ts. unfold track_calls, boot_calls.
  destruct (initialied L).
  - destruct Hreg as (gps & t & ts & R & C & G). cbv zeta in R, C.
    rewrite R.
    destruct (calls_of_registrations
                (map (boot_call (source t) (target t) gps) headings) (t :: ts))
      as [-> ->].
    split; [|split].
    + intros c Hc. simpl in Hc. inversion Hc; subst. now destruct C.
    + intros k c c'. eapply chained_nth; eauto.
    + intros c Hc. rewrite G. now apply final_guess_last.
  - rewrite Hreg. simpl. split; [|split]; intros; discriminate.
Qed.

(** *** One heading search, before all tracking

    Claim C9, amended.  [initialied] is set exactly when a scan has been
    processed.  The registrar calls of a run are the calls of one heading
    search (one per heading, none when no scan was processed) followed by
    the steady-state calls, one per scan in the order in which the scans
    leave the waiting loop: no heading-search call comes after a
    steady-state call, and all of them are made on the scan and map of the
    first steady-state call, the first scan to leave the waiting loop.
    This is the first scan to arrive when no scan is dispatched while
    another waits for the map and the position. *)
Theorem heading_search_once ps open_ok log L0 ds L tr :
  Localizer_new ps open_ok = (log, Returns L0) ->
  spin ds L0 = Some (L, tr) ->
  initialied L = negb (Nat.eqb (List.length (scans ds)) 0)
  /\ exists bs ts,
      registrations tr = map Boot bs ++ map Track ts
      /\ map source ts
         = map (fun m => voxel_filter (scanLeafSize L0) (fromROSMsg m))
               (scans ds)
      /\ List.length bs = (if initialied L then List.length headings else 0%nat)
      /\ (forall b t, In b bs -> nth_error ts 0 = Some t ->
                      source b = source t /\ target b = target t)
      /\ (scans_in_turn ds = true -> scans ds = arrivals ds).
Proof.
  intros Hnew Hspin.
  destruct (Localizer_new_fresh _ _ _ _ Hnew) as (Hf & _).
  pose proof (tracking_run _ _ _ _ Hf Hspin) as T.
  pose proof (tracking_length _ _ _ _ T) as Hlen.
  destruct T as (_ & _ & _ & _ & Hsrc & _ & _ & _ & Hreg).
  unfold track_calls in Hlen, Hsrc.
  pose proof (scans_in_turn_arrivals ds) as Hturn.
  destruct (initialied L).
  - destruct Hreg as (gps & t & ts & R & _ & _). cbv zeta in R.
    rewrite R in Hlen, Hsrc.
    rewrite (proj2 (calls_of_registrations _ _)) in Hlen, Hsrc.
    split.
    + rewrite <- Hlen. reflexivity.
    + exists (map (boot_call (source t) (target t) gps) headings), (t :: ts).
      split; [exact R|]. split; [exact Hsrc|]. split; [apply length_map|].
      split; [|exact Hturn].
      intros b t' Hb Ht. simpl in Ht. inversion Ht; subst.
      apply (proj1 (in_map_iff _ _ _)) in Hb.
      destruct Hb as (yaw & <- & _). split; reflexivity.
  - rewrite Hreg in Hlen, Hsrc. simpl in Hlen, Hsrc. split.
    + rewrite <- Hlen. reflexivity.
    + exists [], []. split; [exact Hreg|]. split; [exact Hsrc|].
      split; [reflexivity|]. split; [|exact Hturn]. intros b t [].
Qed.

(** *** The fitness total

    Claim C10.  [localization_score] at the end of a run is the sum, in
    frame order from 0, of the fitness scores of the steady-state
    registrations, one per processed scan and the first scan included; the
    scores of the heading search are not part of it.  The destructor prints
    this value (when the result file is open). *)
Theorem score_total ps open_ok log L0 ds L tr :
  Localizer_new ps open_ok = (log, Returns L0) ->
  spin ds L0 = Some (L, tr) ->
  localization_score L = total_score (track_calls tr)
  /\ List.length (track_calls tr) = List.length (scans ds)
  /\ Localizer_delete L
     = if open_ok
       then [ROS_LOG INFO (ICP_score (total_score (track_calls tr)))]
       else [].
Proof.
  intros Hnew Hspin.
  destruct (Localizer_new_fresh _ _ _ _ Hnew) as (Hf & Hopen & _).
  pose proof (tracking_run _ _ _ _ Hf Hspin) as T.
  pose proof (tracking_length _ _ _ _ T) as Hlen.
  destruct T as (_ & _ & _ & Ho & _ & _ & Hs & _).
  split; [exact Hs|]. split; [exact Hlen|].
  unfold Localizer_delete. now rewrite Ho, Hopen, Hs.
Qed.

(** *** The recorded pose

    Claim C7.  Each row of the result file holds, for its frame, the
    translation and the yaw, pitch and roll of the transform
    [result * inverse(car2Lidar)]: the registration result of the frame
    composed with the inverse of the configured extrinsics.  With the file
    open there is one row per processed scan after the header. *)
Theorem recorded_pose_composed ps open_ok log L0 ds L tr :
  Localizer_new ps open_ok = (log, Returns L0) ->
  spin ds L0 = Some (L, tr) ->
  (forall k l, nth_error (outfile L) (S k) = Some l ->
     exists c, nth_error (track_calls tr) k = Some c
       /\ let tf_p :=
            affine_mul (cast_double (fst (track_out c)))
                       (affine_inverse (transformToEigen (car2Lidar L0))) in
          l = Row (int_wrap (Z.of_nat (S k)))
                  (affine_translation tf_p) (getEulerYPR tf_p))
  /\ (open_ok = true ->
      List.length (outfile L) = S (List.length (scans ds))).
Proof.
  intros Hnew Hspin.
  destruct (Localizer_new_fresh _ _ _ _ Hnew) as (Hf & Hopen & _).
  pose proof (tracking_run _ _ _ _ Hf Hspin) as T.
  pose proof (tracking_length _ _ _ _ T) as Hlen.
  destruct T as (_ & _ & _ & _ & _ & _ & _ & Hout & _).
  rewrite Hopen in Hout. rewrite Hout. split.
  - intros k l Hl. destruct open_ok; [|destruct k; discriminate].
    simpl in Hl. rewrite rows_from_nth in Hl.
    destruct (nth_error (track_calls tr) k) as [c|]; [|discriminate].
    exists c. split; [reflexivity|]. simpl in Hl. inversion Hl. reflexivity.
  - intros ->. simpl. f_equal. rewrite <- Hlen.
    rewrite <- (length_map line_id), rows_from_ids. now rewrite length_map, length_seq.
Qed.

Lemma ids_in_range n :
  Z.of_nat n <= INT_MAX ->
  map (fun k => Some (int_wrap (Z.of_nat k))) (seq 1 n)
  = map (fun k => Some (Z.of_nat k)) (seq 1 n).
Proof.
  intros H. apply map_ext_in. intros k Hk. apply in_seq in Hk.
  rewrite int_wrap_small; [reflexivity|]. unfold INT_MAX in *. lia.
Qed.

(** *** Sequence ids

    Claim C6, amended.  In a run that processes [N <= INT_MAX] scans, the
    lines inserted into an open result file are the header followed by rows
    with the ids 1, 2, ..., N in this order, and the row with the id [k] is
    the record of the [k]-th scan to leave the waiting loop: the pose
    computed from the registration of that scan.  Nothing is inserted when
    the file could not be opened.  The scans leave the waiting loop in the
    order of their arrival when none of them is dispatched while another
    waits for the map and the position. *)
Theorem sequence_ids ps open_ok log L0 ds L tr :
  Localizer_new ps open_ok = (log, Returns L0) ->
  spin ds L0 = Some (L, tr) ->
  Z.of_nat (List.length (scans ds)) <= INT_MAX ->
  map line_id (outfile L)
  = (if open_ok
     then None :: map (fun k => Some (Z.of_nat k))
                      (seq 1 (List.length (scans ds)))
     else [])
  /\ (open_ok = true ->
      forall k m,
        nth_error (scans ds) k = Some m ->
        exists c,
          nth_error (track_calls tr) k = Some c
          /\ source c = voxel_filter (scanLeafSize L0) (fromROSMsg m)
          /\ nth_error (outfile L) (S k) = Some (row_of (car2Lidar L0) k c)
          /\ line_id (row_of (car2Lidar L0) k c) = Some (Z.of_nat (S k)))
  /\ (scans_in_turn ds = true -> scans ds = arrivals ds).
Proof.
  intros Hnew Hspin Hn.
  destruct (Localizer_new_fresh _ _ _ _ Hnew) as (Hf & Hopen & _).
  pose proof (tracking_run _ _ _ _ Hf Hspin) as T.
  pose proof (tracking_length _ _ _ _ T) as Hlen.
  destruct T as (_ & _ & _ & _ & Hsrc & _ & _ & Hout & _).
  rewrite Hopen in Hout. rewrite Hout.
  split; [|split; [|apply scans_in_turn_arrivals]].
  - destruct open_ok; [|reflexivity].
    simpl. f_equal. rewrite rows_from_ids, Hlen. now apply ids_in_range.
  - intros -> k m Hk.
    assert (Hlt : (k < List.length (scans ds))%nat)
      by (apply nth_error_Some; congruence).
    apply (map_nth_error
             (fun m => voxel_filter (scanLeafSize L0) (fromROSMsg m))) in Hk.
    rewrite <- Hsrc, nth_error_map in Hk.
    destruct (nth_error (track_calls tr) k) as [c|] eqn:Hc; [|discriminate].
    simpl in Hk. inversion Hk as [Hs]. exists c.
    split; [reflexivity|]. split; [reflexivity|]. split.
    + cbn [nth_error]. now rewrite rows_from_nth, Hc.
    + unfold row_of. cbn [line_id]. f_equal.
      apply int_wrap_small. unfold INT_MAX in *. lia.
Qed.


Lemma select_none outs :
  Forall (fun o => dlt (snd o) (double_of_float FLT_MAX) = false) outs ->
  select outs = (FLT_MAX, Identity).
Proof.
  induction outs as [|x outs IH] using rev_ind; intros H; [reflexivity|].
  apply Forall_app in H. destruct H as [H Hx]. inversion Hx; subst.
  rewrite select_snoc, (IH H). unfold pick. simpl.
  match goal with Hb : dlt _ _ = false |- _ => now rewrite Hb end.
Qed.

(** *** The selected candidate

    Claim C1, amended.  If none of the scores returned for the headings is
    below [FLT_MAX], the heading search keeps the identity.  If one is, and
    the scores are numbers, and storing a score in the [float] [min_score]
    changes none of its comparisons with later scores, the pose kept is
    that of the first candidate with the minimum score. *)
Theorem heading_search_first_minimum src tgt gps g0 :
  let outs := map (fun y => boot_out (boot_call src tgt gps y)) headings in
  (Forall (fun o => dlt (snd o) (double_of_float FLT_MAX) = false) outs ->
   min_pose (heading_search src tgt gps g0) = Identity)
  /\ (Forall (fun o => is_nan (snd o) = false) outs ->
      narrowing_harmless outs ->
      Exists (fun o => dlt (snd o) (double_of_float FLT_MAX) = true) outs ->
      exists i o, first_minimum outs i o
                  /\ min_pose (heading_search src tgt gps g0) = fst o).
Proof.
  intros outs. rewrite heading_search_select. fold outs. split.
  - intros Hnone. now rewrite select_none.
  - intros Hok Hh Hex.
    destruct (select_spec outs Hok Hh)
      as [(_ & _ & Hnone)|(i & o & Hmin & Hp & _)].
    + apply Exists_exists in Hex. destruct Hex as (o & Hin & Ho).
      rewrite Forall_forall in Hnone. rewrite (Hnone _ Hin) in Ho. discriminate.
    + eauto.
Qed.

Lemma align_map_registrations scan st :
  let fs := voxel_filter (scanLeafSize st) scan in
  let fm := voxel_filter (mapLeafSize st) (map_points st) in
  let bs := if initialied st then []
            else map (boot_call fs fm (gps_point st)) headings in
  let g := if initialied st then init_guess st
           else snd (select (map boot_out bs)) in
  registrations (snd (align_map scan st))
  = map Boot bs ++ [Track {| source := fs; target := fm; guess := g |}].
Proof.
  unfold align_map, find_initial_guess.
  destruct (initialied st) eqn:Hinit; simpl; [reflexivity|].
  rewrite heading_search_select. unfold heading_search.
  destruct (search_fold_log
              (voxel_filter (scanLeafSize st) scan)
              (voxel_filter (mapLeafSize st) (map_points st))
              (gps_point st) headings
              {| s_init_guess := init_guess st; min_score := FLT_MAX;
                 min_pose := Identity; s_log := [] |})
    as (said & Hlog & Hreg & _).
  simpl in Hlog. rewrite Hlog.
  rewrite !registrations_app, Hreg, map_map. reflexivity.
Qed.

(** *** The number of registrar calls of the heading search

    Claim C3, amended.  On a node that is not initialised, [align_map]
    calls the heading-search registrar exactly four times, once per
    heading and in order, on the downsampled scan and map with the guess
    built from [gps_point] and the heading.  The headings are 0 and the
    [float]s nearest to 0.05, 0.1 and 0.15, and the loop stops by its own
    test. *)
Theorem heading_search_four_calls scan st :
  initialied st = false ->
  let fs := voxel_filter (scanLeafSize st) scan in
  let fm := voxel_filter (mapLeafSize st) (map_points st) in
  boot_calls (snd (align_map scan st))
  = map (boot_call fs fm (gps_point st)) headings
  /\ List.length (boot_calls (snd (align_map scan st))) = 4%nat
  /\ (forall n, yaw_values (5 + n) (float_of_Z 0) = Some headings)
  /\ headings = [S754_zero false;
                 S754_finite false 13421773 (-28);
                 S754_finite false 13421773 (-27);
                 S754_finite false 10066330 (-26)].
Proof.
  intros Hinit fs fm.
  pose proof (align_map_registrations scan st) as R. cbv zeta in R.
  rewrite Hinit in R. fold fs fm in R.
  assert (Hb : boot_calls (snd (align_map scan st))
               = map (boot_call fs fm (gps_point st)) headings).
  { unfold boot_calls. rewrite R.
    exact (proj1 (calls_of_registrations _ [_])). }
  split; [exact Hb|]. split.
  - now rewrite Hb, length_map, headings_length.
  - split; [exact yaw_values_enough | exact headings_values].
Qed.

(** *** The position that seeds the heading search

    Claim C4, amended.  The guess of every heading-search call is built from
    one of the headings and the coordinates, narrowed to [float], of the
    latest position message handled before the call. *)
Theorem heading_search_seeded_by_latest_fix ps open_ok log L0 ds L tr :
  Localizer_new ps open_ok = (log, Returns L0) ->
  spin ds L0 = Some (L, tr) ->
  forall pre c post, tr = pre ++ FirstIcpAlign c :: post ->
    exists p yaw,
      latest_fix (latest_of pre) = Some p /\ In yaw headings
      /\ guess c = translation_rotation_z (PointXYZ_of_Point p) yaw.
Proof.
  intros Hnew Hspin pre c post ->.
  destruct (Localizer_new_fresh _ _ _ _ Hnew) as (Hf & _).
  pose proof (fed_run _ _ _ _ Hf Hspin) as (_ & _ & _ & _ & Hs).
  apply sound_split in Hs. destruct Hs as (m & p & yaw & _ & Hp & Hy & _ & Hg).
  eauto.
Qed.

(** *** The map a registration aligns to

    Claim C8, amended.  The target of every registrar call is the
    downsampling of the latest map message handled before the call, and the
    stored map is at any time the conversion of the latest map message
    handled (the empty cloud before the first). *)
Theorem registration_target_latest_map ps open_ok log L0 ds L tr :
  Localizer_new ps open_ok = (log, Returns L0) ->
  spin ds L0 = Some (L, tr) ->
  (forall pre c post,
      tr = pre ++ FirstIcpAlign c :: post \/ tr = pre ++ IcpAlign c :: post ->
      exists m, latest_map (latest_of pre) = Some m
                /\ target c = voxel_filter (mapLeafSize L0) (fromROSMsg m))
  /\ map_points L = match latest_map (latest_of tr) with
                    | Some m => fromROSMsg m
                    | None => empty_cloud
                    end.
Proof.
  intros Hnew Hspin.
  destruct (Localizer_new_fresh _ _ _ _ Hnew) as (Hf & _ & Hempty).
  pose proof (fed_run _ _ _ _ Hf Hspin) as (_ & Hmap & _ & _ & Hs).
  split.
  - intros pre c post [-> | ->]; apply sound_split in Hs.
    + destruct Hs as (m & _ & _ & Hm & _ & _ & Ht & _). eauto.
    + destruct Hs as (m & Hm & Ht). eauto.
  - now rewrite Hmap, Hempty.
Qed.

(** *** Malformed extrinsics

    Claim C5, amended.  When the translation does not have 3 elements or the
    rotation does not have 4, the constructor logs the error.  With too few
    elements it then throws [out_of_range] and no node is constructed; with
    at least 3 and 4 elements it returns a node whose extrinsics are the
    first 3 and the first 4 elements. *)
Theorem constructor_on_malformed_extrinsics ps open_ok :
  let trans := param (baselink2lidar_trans ps) [] in
  let rot := param (baselink2lidar_rot ps) [] in
  (List.length trans <> 3 \/ List.length rot <> 4)%nat ->
  In (ROS_LOG ERROR transform_not_set_properly)
     (fst (Localizer_new ps open_ok))
  /\ ((List.length trans < 3 \/ List.length rot < 4)%nat ->
      snd (Localizer_new ps open_ok) = Throws out_of_range
      /\ ~ In (ROS_LOG INFO node_initialized) (fst (Localizer_new ps open_ok)))
  /\ ((3 <= List.length trans /\ 4 <= List.length rot)%nat ->
      exists L0 tx ty tz trest rx ry rz rw rrest,
        snd (Localizer_new ps open_ok) = Returns L0
        /\ trans = tx :: ty :: tz :: trest
        /\ rot = rx :: ry :: rz :: rw :: rrest
        /\ car2Lidar L0
           = {| translation := {| v_x := double_of_float tx;
                                  v_y := double_of_float ty;
                                  v_z := double_of_float tz |};
                rotation := {| q_x := double_of_float rx;
                               q_y := double_of_float ry;
                               q_z := double_of_float rz;
                               q_w := double_of_float rw |} |}).
Proof.
  intros trans rot Hbad. unfold Localizer_new. fold trans rot.
  generalize dependent rot. generalize dependent trans.
  intros trans rot Hbad.
  assert (Hlog : negb (Nat.eqb (List.length trans) 3)
                 || negb (Nat.eqb (List.length rot) 4) = true).
  { destruct Hbad as [H|H]; apply Nat.eqb_neq in H; rewrite H; simpl; auto.
    apply orb_true_r. }
  rewrite Hlog.
  destruct trans as [|tx [|ty [|tz trest]]];
    try (split; [simpl; auto|]; split;
         [intros _; split; [reflexivity|simpl; intuition discriminate]
         |simpl; intros [? ?]; lia]).
  destruct rot as [|rx [|ry [|rz [|rw rrest]]]];
    try (split; [simpl; auto|]; split;
         [intros _; split; [reflexivity|simpl; intuition discriminate]
         |simpl; intros [? ?]; lia]).
  split; [simpl; auto|]. split.
  - simpl. intros [?|?]; lia.
  - intros _. simpl. repeat eexists.
Qed.


(** *** Long runs *)

Lemma scans_repeat msg n r :
  fst r && snd r = true ->
  visit_available (visit leaving) (repeat (Scan msg []) n) r = (repeat msg n, r).
Proof.
  intros H. induction n as [|n IH]; [reflexivity|].
  cbn [repeat]. rewrite visit_available_cons, visit_scan.
  cbn [visit_loop]. rewrite H. cbn [fst snd]. now rewrite IH.
Qed.

(** Once map and position are there, any number of scans is processed. *)
Lemma spin_scans_ready msg n : forall st,
  gps_ready st = true -> map_ready st = true ->
  exists st' tr, spin (repeat (Scan msg []) n) st = Some (st', tr).
Proof.
  induction n as [|n IH]; intros st Hg Hm.
  - simpl. eauto.
  - cbn [repeat]. rewrite spin_cons, callback_scan. unfold pc_callback.
    rewrite wait_ready_ready by now rewrite Hg, Hm.
    pose proof (pc_process_state msg st) as S. cbv zeta in S.
    destruct S as (_ & _ & _ & _ & S5 & S6 & _).
    destruct (pc_process msg st) as [st1 said1]. simpl in S5, S6.
    destruct (IH st1) as (st2 & tr2 & ->); [congruence|congruence|].
    eauto.
Qed.

(** The row written for frame 2^31 carries the id -2^31. *)
Lemma burst_overflow ps log L0 f m msg n :
  Localizer_new ps true = (log, Returns L0) ->
  Z.of_nat n = 2 ^ 31 ->
  let ds := Deliver (GpsMsg f) :: Deliver (MapMsg m)
              :: repeat (Scan msg []) n in
  exists L tr,
    spin ds L0 = Some (L, tr)
    /\ map line_id (outfile L)
       <> None :: map (fun k => Some (Z.of_nat k))
                      (seq 1 (List.length (scans ds))).
Proof.
  intros Hnew Hn ds.
  destruct (Localizer_new_fresh _ _ _ _ Hnew) as (Hf & Hopen & _).
  assert (Hrun : exists L tr, spin ds L0 = Some (L, tr)).
  { subst ds. unfold spin.
    cbn [call_available callback dispatch map_callback gps_callback fst snd].
    destruct (spin_scans_ready msg n
                (set_map (set_gps L0 (PointXYZ_of_Point f)) (fromROSMsg m)))
      as (L & tr & E); [reflexivity|reflexivity|].
    unfold spin in E. rewrite E. eauto. }
  destruct Hrun as (L & tr & Hspin). exists L, tr. split; [exact Hspin|].
  pose proof (tracking_run _ _ _ _ Hf Hspin) as T.
  pose proof (tracking_length _ _ _ _ T) as Hlen.
  destruct T as (_ & _ & _ & _ & _ & _ & _ & Hout & _).
  rewrite Hopen in Hout. rewrite Hout.
  cbn [map line_id]. rewrite rows_from_ids, Hlen.
  assert (Hs : List.length (scans ds) = n).
  { subst ds. unfold scans. rewrite !visit_available_cons.
    cbn [visit flag_feed fst snd app].
    rewrite scans_repeat by reflexivity. apply repeat_length. }
  rewrite Hs. intros E. injection E as E.
  apply (f_equal (fun l => nth_error l (n - 1))) in E.
  rewrite !nth_error_map, nth_error_seq in E.
  assert (Hlt : (n - 1 <? n)%nat = true) by (apply Nat.ltb_lt; lia).
  rewrite Hlt in E. cbn [option_map] in E.
  replace (Z.of_nat (1 + (n - 1))) with (2 ^ 31) in E by lia.
  vm_compute in E. discriminate.
Qed.

End NodeFacts.

(** ** The properties on concrete runs *)

Module Runs.

Import Toy.

Ltac by_computation := vm_compute; reflexivity.

(** The node built from [params] with the result file open. *)
Lemma built_spec :
  @Localizer_new w_spec params true
  = (said_at_start w_spec params true, Returns (built w_spec params true)).
Proof. by_computation. Qed.

Lemma built_lost :
  @Localizer_new w_lost params true
  = (said_at_start w_lost params true, Returns (built w_lost params true)).
Proof. by_computation. Qed.

Lemma built_stamp :
  @Localizer_new w_stamp params true
  = (said_at_start w_stamp params true, Returns (built w_stamp params true)).
Proof. by_computation. Qed.

Lemma ran_scans_waiting :
  spin (scans_waiting w_stamp 7 9 10 11) (built w_stamp params true)
  = Some (ran w_stamp (scans_waiting w_stamp 7 9 10 11)
              (built w_stamp params true)).
Proof. by_computation. Qed.

Lemma ran_two_frames :
  spin (two_frames w_spec 7 9 10) (built w_spec params true)
  = Some (ran w_spec (two_frames w_spec 7 9 10) (built w_spec params true)).
Proof. by_computation. Qed.

Lemma ran_scan_first :
  spin (scan_first w_spec 7 9 10) (built w_spec params true)
  = Some (ran w_spec (scan_first w_spec 7 9 10) (built w_spec params true)).
Proof. by_computation. Qed.

Lemma ran_two_fixes :
  spin (two_fixes w_spec 7 9) (built w_spec params true)
  = Some (ran w_spec (two_fixes w_spec 7 9) (built w_spec params true)).
Proof. by_computation. Qed.

Lemma ran_two_maps :
  spin (two_maps w_spec 7 8 9 10) (built w_spec params true)
  = Some (ran w_spec (two_maps w_spec 7 8 9 10) (built w_spec params true)).
Proof. by_computation. Qed.

(** With the scores 5.0, 3.0, 4.0, 3.5 the search keeps the pose of the
    second heading, the [float] nearest to 0.05. *)
Example spec_scores_select_second_heading :
  snd (min_pose (@heading_search w_spec 9 7 origin Identity))
  = S754_finite false 13421773 (-28).
Proof. by_computation. Qed.

(** The narrowing of [min_score]: the second score is lower than the first,
    yet the first candidate is kept. *)
Example narrowed_minimum_hides_lower_score :
  let out := fun y => @boot_out w_close (@boot_call w_close 9 7 origin y) in
  let yaw0 := float_of_Z 0 in
  let yaw1 := yaw_next yaw0 in
  nth_error headings 0 = Some yaw0 /\ nth_error headings 1 = Some yaw1
  /\ dlt (snd (out yaw1)) (snd (out yaw0)) = true
  /\ min_pose (@heading_search w_close 9 7 origin Identity) = fst (out yaw0)
  /\ double_of_float (float_of_double (snd (out yaw0))) <> snd (out yaw0).
Proof.
  repeat apply conj; try by_computation.
  vm_compute. discriminate.
Qed.

(** *** Claim C1 *)

Lemma heading_search_first_minimum_witness :
  let lost :=
    map (fun y => @boot_out w_lost (@boot_call w_lost 9 7 origin y)) headings in
  let outs :=
    map (fun y => @boot_out w_plain (@boot_call w_plain 9 7 origin y))
        headings in
  (Forall (fun o => dlt (snd o) (double_of_float FLT_MAX) = false) lost
   /\ min_pose (@heading_search w_lost 9 7 origin Identity) = Identity)
  /\ Forall (fun o => is_nan (snd o) = false) outs
  /\ narrowing_harmless outs
  /\ Exists (fun o => dlt (snd o) (double_of_float FLT_MAX) = true) outs
  /\ exists i o,
      first_minimum outs i o
      /\ min_pose (@heading_search w_plain 9 7 origin Identity) = fst o.
Proof.
  intros lost outs.
  assert (Hlost : Forall (fun o => dlt (snd o) (double_of_float FLT_MAX) = false)
                         lost).
  { subst lost. rewrite headings_values. cbn [map].
    repeat (apply Forall_cons; [vm_compute; reflexivity|]). apply Forall_nil. }
  assert (Hnum : Forall (fun o => is_nan (snd o) = false) outs).
  { subst outs. rewrite headings_values. cbn [map].
    repeat (apply Forall_cons; [vm_compute; reflexivity|]). apply Forall_nil. }
  assert (Hh : narrowing_harmless outs).
  { subst outs. rewrite headings_values. cbn [map narrowing_harmless].
    repeat (apply conj);
      repeat (apply Forall_cons; [vm_compute; reflexivity|]);
      try apply Forall_nil; exact I. }
  assert (Hex : Exists (fun o => dlt (snd o) (double_of_float FLT_MAX) = true)
                       outs).
  { subst outs. rewrite headings_values. cbn [map].
    apply Exists_cons_hd. vm_compute. reflexivity. }
  split.
  - split; [exact Hlost|].
    exact (proj1 (heading_search_first_minimum (ext := w_lost)
                    9 7 origin Identity) Hlost).
  - split; [exact Hnum|]. split; [exact Hh|]. split; [exact Hex|].
    exact (proj2 (heading_search_first_minimum (ext := w_plain)
                    9 7 origin Identity) Hnum Hh Hex).
Defined.

(** The scores 0.1, 0.05, 0.2, 0.3 change when stored in a [float]; the
    search still keeps the pose of the second heading. *)
Example plain_scores_select_second_heading :
  let outs :=
    map (fun y => @boot_out w_plain (@boot_call w_plain 9 7 origin y))
        headings in
  Forall (fun o => narrowed (snd o) <> snd o) outs
  /\ snd (min_pose (@heading_search w_plain 9 7 origin Identity))
     = S754_finite false 13421773 (-28).
Proof.
  intros outs. split; [|by_computation].
  subst outs. rewrite headings_values. cbn [map].
  repeat (apply Forall_cons; [vm_compute; discriminate|]). apply Forall_nil.
Qed.

(** When every score is [DBL_MAX], no candidate is ever taken: the search
    keeps the identity, which is the pose of none of the candidates. *)
Lemma heading_search_keeps_identity_when_lost :
  let outs :=
    map (fun y => @boot_out w_lost (@boot_call w_lost 9 7 origin y)) headings in
  ~ exists i o, first_minimum outs i o
                /\ min_pose (@heading_search w_lost 9 7 origin Identity) = fst o.
Proof.
  intros outs (i & o & (Hi & _) & Hp).
  assert (Hin : In o outs) by (eapply nth_error_In; eassumption).
  subst outs. rewrite headings_values in Hin. cbn [map In] in Hin.
  assert (Hid : min_pose (@heading_search w_lost 9 7 origin Identity)
                = (origin, f0)) by by_computation.
  rewrite Hid in Hp. clear Hi Hid.
  destruct Hin as [H|[H|[H|[H|[]]]]];
    rewrite <- H in Hp; vm_compute in Hp; discriminate.
Qed.

(** *** Claim C2 *)

Lemma warm_start_witness :
  let L0 := built w_stamp params true in
  let ds := scans_waiting w_stamp 7 9 10 11 in
  let L := fst (ran w_stamp ds L0) in
  let tr := snd (ran w_stamp ds L0) in
  let ts := track_calls tr in
  Localizer_new params true = (said_at_start w_stamp params true, Returns L0)
  /\ spin ds L0 = Some (L, tr)
  /\ map source ts
     = map (fun m => voxel_filter (scanLeafSize L0) (fromROSMsg m)) (scans ds)
  /\ (forall c, nth_error ts 0 = Some c ->
                guess c = snd (select (map boot_out (boot_calls tr))))
  /\ (forall k c c', nth_error ts k = Some c -> nth_error ts (S k) = Some c' ->
                     guess c' = fst (track_out c))
  /\ (forall c, nth_error ts (pred (List.length ts)) = Some c ->
                init_guess L = fst (track_out c))
  /\ (scans_in_turn ds = true -> scans ds = arrivals ds).
Proof.
  intros L0 ds L tr ts.
  assert (Hnew : Localizer_new params true
                 = (said_at_start w_stamp params true, Returns L0))
    by by_computation.
  assert (Hspin : spin ds L0 = Some (L, tr)) by by_computation.
  split; [exact Hnew|]. split; [exact Hspin|].
  exact (warm_start (ext := w_stamp) _ _ _ _ _ _ _ Hnew Hspin).
Defined.

(** Scans 9 and 10 arrive in this order before the map and the position,
    scan 11 after them.  Scan 10 is registered first, from the best pose
    of the heading search; scan 9 is registered next, from the transform
    returned for scan 10: the registration of the second frame does not use
    the transform of the first, and that of the first does not start from
    the best pose of the search. *)
Lemma warm_start_not_in_arrival_order :
  let L0 := built w_stamp params true in
  let ds := scans_waiting w_stamp 7 9 10 11 in
  let tr := snd (ran w_stamp ds L0) in
  let c1 := nth 1 (track_calls tr) (no_call w_stamp) in
  let c2 := nth 0 (track_calls tr) (no_call w_stamp) in
  spin ds L0 = Some (ran w_stamp ds L0)
  /\ arrivals ds = [9; 10; 11]
  /\ map source (track_calls tr) = [10; 9; 11]
  /\ source c1 = 9 /\ source c2 = 10
  /\ guess c2 = snd (select (map boot_out (boot_calls tr)))
  /\ guess c1 = fst (track_out c2)
  /\ guess c2 <> fst (track_out c1)
  /\ guess c1 <> snd (select (map boot_out (boot_calls tr))).
Proof.
  intros L0 ds tr c1 c2.
  repeat apply conj; try by_computation; vm_compute; discriminate.
Qed.

(** *** Claim C3 *)

Lemma heading_search_four_calls_witness :
  let st := built w_spec params true in
  initialied st = false
  /\ boot_calls (snd (@align_map w_spec 9 st))
     = map (@boot_call w_spec (@voxel_filter w_spec (scanLeafSize st) 9)
                      (@voxel_filter w_spec (mapLeafSize st) (map_points st))
                      (gps_point st)) headings
  /\ List.length (boot_calls (snd (@align_map w_spec 9 st))) = 4%nat.
Proof.
  intros st.
  assert (Hinit : initialied st = false) by by_computation.
  split; [exact Hinit|].
  destruct (heading_search_four_calls (ext := w_spec) 9 st Hinit)
    as (H1 & H2 & _).
  split; [exact H1 | exact H2].
Defined.

(** The registrar of the heading search is not called five times. *)
Lemma heading_search_not_five_calls :
  let st := built w_spec params true in
  initialied st = false
  /\ List.length (boot_calls (snd (@align_map w_spec 9 st))) <> 5%nat.
Proof. split; [by_computation|]. vm_compute. discriminate. Qed.

(** *** Claim C4 *)

Lemma heading_search_seeded_by_latest_fix_witness :
  let L0 := built w_spec params true in
  let ds := two_fixes w_spec 7 9 in
  let L := fst (ran w_spec ds L0) in
  let tr := snd (ran w_spec ds L0) in
  Localizer_new params true = (said_at_start w_spec params true, Returns L0)
  /\ spin ds L0 = Some (L, tr)
  /\ forall pre c post, tr = pre ++ FirstIcpAlign c :: post ->
       exists p yaw,
         latest_fix (latest_of pre) = Some p /\ In yaw headings
         /\ guess c = translation_rotation_z (PointXYZ_of_Point p) yaw.
Proof.
  intros L0 ds L tr.
  assert (Hnew : Localizer_new params true
                 = (said_at_start w_spec params true, Returns L0))
    by by_computation.
  assert (Hspin : spin ds L0 = Some (L, tr)) by by_computation.
  split; [exact Hnew|]. split; [exact Hspin|].
  exact (heading_search_seeded_by_latest_fix (ext := w_spec)
           _ _ _ _ _ _ _ Hnew Hspin).
Defined.

(** Two position messages before the first scan: the guesses of the search
    are built from the second one, not from the first. *)
Lemma heading_search_seeded_by_second_fix :
  let L0 := built w_spec params true in
  let ds := two_fixes w_spec 7 9 in
  let tr := snd (ran w_spec ds L0) in
  spin ds L0 = Some (ran w_spec ds L0)
  /\ map guess (boot_calls tr)
     = map (translation_rotation_z (PointXYZ_of_Point fix2)) headings
  /\ map guess (boot_calls tr)
     <> map (translation_rotation_z (PointXYZ_of_Point fix1)) headings.
Proof.
  split; [by_computation|]. split; [by_computation|].
  vm_compute. discriminate.
Qed.

(** *** Claim C5 *)

Lemma constructor_on_malformed_extrinsics_witness :
  (List.length (param (baselink2lidar_trans unset) []) <> 3
   \/ List.length (param (baselink2lidar_rot unset) []) <> 4)%nat
  /\ In (ROS_LOG ERROR transform_not_set_properly)
        (fst (@Localizer_new w_spec unset true))
  /\ snd (@Localizer_new w_spec unset true) = Throws out_of_range.
Proof.
  assert (Hbad : (List.length (param (baselink2lidar_trans unset) []) <> 3
                  \/ List.length (param (baselink2lidar_rot unset) []) <> 4)%nat)
    by (left; vm_compute; discriminate).
  split; [exact Hbad|].
  destruct (constructor_on_malformed_extrinsics (ext := w_spec) unset true Hbad)
    as (Hlog & Hshort & _).
  split; [exact Hlog|].
  apply Hshort. left. vm_compute. lia.
Defined.

(** With the extrinsics not set the constructor throws. *)
Lemma constructor_throws_on_unset_extrinsics :
  @Localizer_new w_spec unset true
  = ([ROS_LOG INFO (saving_results "result.csv");
      ROS_LOG ERROR transform_not_set_properly],
     Throws out_of_range).
Proof. by_computation. Qed.

(** *** Claim C6 *)

Lemma sequence_ids_witness :
  let L0 := built w_stamp params true in
  let ds := scans_waiting w_stamp 7 9 10 11 in
  let L := fst (ran w_stamp ds L0) in
  let tr := snd (ran w_stamp ds L0) in
  Localizer_new params true = (said_at_start w_stamp params true, Returns L0)
  /\ spin ds L0 = Some (L, tr)
  /\ Z.of_nat (List.length (scans ds)) <= INT_MAX
  /\ map line_id (outfile L)
     = None :: map (fun k => Some (Z.of_nat k)) (seq 1 (List.length (scans ds)))
  /\ (true = true ->
      forall k m,
        nth_error (scans ds) k = Some m ->
        exists c,
          nth_error (track_calls tr) k = Some c
          /\ source c = voxel_filter (scanLeafSize L0) (fromROSMsg m)
          /\ nth_error (outfile L) (S k) = Some (row_of (car2Lidar L0) k c)
          /\ line_id (row_of (car2Lidar L0) k c) = Some (Z.of_nat (S k)))
  /\ (scans_in_turn ds = true -> scans ds = arrivals ds).
Proof.
  intros L0 ds L tr.
  assert (Hnew : Localizer_new params true
                 = (said_at_start w_stamp params true, Returns L0))
    by by_computation.
  assert (Hspin : spin ds L0 = Some (L, tr)) by by_computation.
  assert (Hn : Z.of_nat (List.length (scans ds)) <= INT_MAX)
    by (vm_compute; discriminate).
  split; [exact Hnew|]. split; [exact Hspin|]. split; [exact Hn|].
  exact (sequence_ids (ext := w_stamp) _ _ _ _ _ _ _ Hnew Hspin Hn).
Defined.

(** When the scans 9 and 10 arrive in this order before the map and the
    position, the row with the id 1 is the record of scan 10, the second
    scan to arrive. *)
Example first_row_records_second_arrival :
  let L0 := built w_stamp params true in
  let ds := scans_waiting w_stamp 7 9 10 11 in
  let L := fst (ran w_stamp ds L0) in
  let tr := snd (ran w_stamp ds L0) in
  let c := nth 0 (track_calls tr) (no_call w_stamp) in
  arrivals ds = [9; 10; 11]
  /\ source c = 10
  /\ nth_error (outfile L) 1 = Some (row_of (car2Lidar L0) 0 c)
  /\ line_id (row_of (car2Lidar L0) 0 c) = Some 1.
Proof. repeat apply conj; by_computation. Qed.

(** A run of 2^31 scans: the ids written are not 1, 2, ..., 2^31. *)
Lemma sequence_ids_overflow :
  let L0 := built w_spec params true in
  let ds := burst w_spec 7 9 many in
  exists L tr,
    spin ds L0 = Some (L, tr)
    /\ map line_id (outfile L)
       <> None :: map (fun k => Some (Z.of_nat k))
                      (seq 1 (List.length (scans ds))).
Proof.
  intros L0 ds.
  assert (Hnew : Localizer_new params true
                 = (said_at_start w_spec params true, Returns L0))
    by by_computation.
  assert (Hmany : Z.of_nat many = 2 ^ 31).
  { unfold many. apply Z2Nat.id. apply Z.pow_nonneg. lia. }
  exact (burst_overflow (ext := w_spec) _ _ _ fix1 7 9 many Hnew Hmany).
Qed.

(** *** Claim C7 *)

Lemma recorded_pose_composed_witness :
  let L0 := built w_spec params true in
  let ds := two_frames w_spec 7 9 10 in
  let L := fst (ran w_spec ds L0) in
  let tr := snd (ran w_spec ds L0) in
  Localizer_new params true = (said_at_start w_spec params true, Returns L0)
  /\ spin ds L0 = Some (L, tr)
  /\ (forall k l, nth_error (outfile L) (S k) = Some l ->
        exists c, nth_error (track_calls tr) k = Some c
          /\ let tf_p :=
               affine_mul (cast_double (fst (track_out c)))
                          (affine_inverse (transformToEigen (car2Lidar L0))) in
             l = Row (int_wrap (Z.of_nat (S k)))
                     (affine_translation tf_p) (getEulerYPR tf_p))
  /\ List.length (outfile L) = S (List.length (scans ds)).
Proof.
  intros L0 ds L tr.
  assert (Hnew : Localizer_new params true
                 = (said_at_start w_spec params true, Returns L0))
    by by_computation.
  assert (Hspin : spin ds L0 = Some (L, tr)) by by_computation.
  split; [exact Hnew|]. split; [exact Hspin|].
  destruct (recorded_pose_composed (ext := w_spec) _ _ _ _ _ _ _ Hnew Hspin)
    as [Hrows Hlen].
  split; [exact Hrows | exact (Hlen eq_refl)].
Defined.

(** *** Claim C8 *)

Lemma registration_target_latest_map_witness :
  let L0 := built w_spec params true in
  let ds := two_maps w_spec 7 8 9 10 in
  let L := fst (ran w_spec ds L0) in
  let tr := snd (ran w_spec ds L0) in
  Localizer_new params true = (said_at_start w_spec params true, Returns L0)
  /\ spin ds L0 = Some (L, tr)
  /\ (forall pre c post,
         tr = pre ++ FirstIcpAlign c :: post \/ tr = pre ++ IcpAlign c :: post ->
         exists m, latest_map (latest_of pre) = Some m
                   /\ target c = voxel_filter (mapLeafSize L0) (fromROSMsg m))
  /\ map_points L = match latest_map (latest_of tr) with
                    | Some m => fromROSMsg m
                    | None => empty_cloud
                    end.
Proof.
  intros L0 ds L tr.
  assert (Hnew : Localizer_new params true
                 = (said_at_start w_spec params true, Returns L0))
    by by_computation.
  assert (Hspin : spin ds L0 = Some (L, tr)) by by_computation.
  split; [exact Hnew|]. split; [exact Hspin|].
  exact (registration_target_latest_map (ext := w_spec)
           _ _ _ _ _ _ _ Hnew Hspin).
Defined.

(** A second map message between two scans: the second frame is aligned
    to the second map, and the stored map is the second one. *)
Lemma second_map_replaces_first :
  let L0 := built w_spec params true in
  let ds := two_maps w_spec 7 8 9 10 in
  let L := fst (ran w_spec ds L0) in
  let tr := snd (ran w_spec ds L0) in
  spin ds L0 = Some (L, tr)
  /\ map target (track_calls tr)
     = [@voxel_filter w_spec (mapLeafSize L0) (@fromROSMsg w_spec 7);
        @voxel_filter w_spec (mapLeafSize L0) (@fromROSMsg w_spec 8)]
  /\ @voxel_filter w_spec (mapLeafSize L0) (@fromROSMsg w_spec 8)
     <> @voxel_filter w_spec (mapLeafSize L0) (@fromROSMsg w_spec 7)
  /\ map_points L = @fromROSMsg w_spec 8
  /\ map_points L <> @fromROSMsg w_spec 7.
Proof.
  repeat apply conj; try by_computation; vm_compute; discriminate.
Qed.

(** *** Claim C9 *)

Lemma heading_search_once_witness :
  let L0 := built w_spec params true in
  let ds := scan_first w_spec 7 9 10 in
  let L := fst (ran w_spec ds L0) in
  let tr := snd (ran w_spec ds L0) in
  Localizer_new params true = (said_at_start w_spec params true, Returns L0)
  /\ spin ds L0 = Some (L, tr)
  /\ initialied L = negb (Nat.eqb (List.length (scans ds)) 0)
  /\ exists bs ts,
      registrations tr = map Boot bs ++ map Track ts
      /\ map source ts
         = map (fun m => voxel_filter (scanLeafSize L0) (fromROSMsg m))
               (scans ds)
      /\ List.length bs = (if initialied L then List.length headings else 0%nat)
      /\ (forall b t, In b bs -> nth_error ts 0 = Some t ->
                      source b = source t /\ target b = target t)
      /\ (scans_in_turn ds = true -> scans ds = arrivals ds).
Proof.
  intros L0 ds L tr.
  assert (Hnew : Localizer_new params true
                 = (said_at_start w_spec params true, Returns L0))
    by by_computation.
  assert (Hspin : spin ds L0 = Some (L, tr)) by by_computation.
  split; [exact Hnew|]. split; [exact Hspin|].
  exact (heading_search_once (ext := w_spec) _ _ _ _ _ _ _ Hnew Hspin).
Defined.

(** Scans 9 and 10 arrive in this order before the map and the position:
    every call of the heading search is made on scan 10, the second scan to
    arrive, and none on the first. *)
Lemma heading_search_on_second_arrival :
  let L0 := built w_spec params true in
  let ds := scans_waiting w_spec 7 9 10 11 in
  let tr := snd (ran w_spec ds L0) in
  spin ds L0 = Some (ran w_spec ds L0)
  /\ arrivals ds = [9; 10; 11]
  /\ map source (boot_calls tr) = [10; 10; 10; 10]
  /\ map source (track_calls tr) = [10; 9; 11].
Proof. repeat apply conj; by_computation. Qed.

(** *** Claim C10 *)

Lemma score_total_witness :
  let L0 := built w_spec params true in
  let ds := two_frames w_spec 7 9 10 in
  let L := fst (ran w_spec ds L0) in
  let tr := snd (ran w_spec ds L0) in
  Localizer_new params true = (said_at_start w_spec params true, Returns L0)
  /\ spin ds L0 = Some (L, tr)
  /\ localization_score L = total_score (track_calls tr)
  /\ List.length (track_calls tr) = List.length (scans ds)
  /\ Localizer_delete L
     = [ROS_LOG INFO (ICP_score (total_score (track_calls tr)))].
Proof.
  intros L0 ds L tr.
  assert (Hnew : Localizer_new params true
                 = (said_at_start w_spec params true, Returns L0))
    by by_computation.
  assert (Hspin : spin ds L0 = Some (L, tr)) by by_computation.
  split; [exact Hnew|]. split; [exact Hspin|].
  exact (score_total (ext := w_spec) _ _ _ _ _ _ _ Hnew Hspin).
Defined.

(** Two frames of score 1/4 each after a search whose scores are 5, 3, 4
    and 3.5: the total is 1/2. *)
Example total_excludes_search_scores :
  localization_score
    (fst (ran w_spec (two_frames w_spec 7 9 10) (built w_spec params true)))
  = dyadic 1 (-1).
Proof. by_computation. Qed.

End Runs.

(** ** Further properties of the node *)

Section NodeMore.

Context {ext : External}.

#[local] Opaque headings FLT_MAX int_wrap.

(** *** The waiting loop *)

Lemma dispatch_flags f st :
  gps_ready (fst (dispatch f st)) = gps_ready st || is_fix f
  /\ map_ready (fst (dispatch f st)) = map_ready st || is_map f.
Proof.
  destruct f; simpl; split;
    rewrite ?orb_true_r, ?orb_false_r; reflexivity.
Qed.

Lemma spinOnce_flags pending : forall st,
  forallb is_feed pending = true ->
  exists st1 said1,
    spinOnce pending st = Some (st1, said1)
    /\ gps_ready st1 = gps_ready st || existsb is_fix_delivery pending
    /\ map_ready st1 = map_ready st || existsb is_map_delivery pending.
Proof.
  induction pending as [|d pending IH]; intros st H.
  - exists st, []. simpl. now rewrite !orb_false_r.
  - simpl in H. apply andb_prop in H. destruct H as [Hd Hp].
    destruct d as [f|]; [|discriminate].
    change (spinOnce (Deliver f :: pending) st)
      with (spin (Deliver f :: pending) st).
    rewrite spin_cons. cbn [callback].
    destruct (dispatch_flags f st) as [Hg Hm].
    destruct (dispatch f st) as [st1 said1]. simpl in Hg, Hm.
    destruct (IH st1 Hp) as (st2 & said2 & Hs & Hg2 & Hm2).
    change (spinOnce pending st1) with (spin pending st1) in Hs.
    rewrite Hs. exists st2, (said1 ++ said2). split; [reflexivity|].
    rewrite Hg2, Hm2, Hg, Hm, <- !orb_assoc.
    destruct f; split; reflexivity.
Qed.

Lemma flags_available (pending : list delivery) :
  Forall (fun d => forall st,
              option_map (fun x => flags_of (fst x)) (callback d st)
              = flags_after d (flags_of st)) pending ->
  forall st,
    option_map (fun x => flags_of (fst x)) (spin pending st)
    = flags_after_available flags_after pending (flags_of st).
Proof.
  induction 1 as [|d rest Hd _ IH]; intros st; [reflexivity|].
  rewrite spin_cons. cbn [flags_after_available].
  rewrite <- (Hd st).
  destruct (callback d st) as [[st1 said1]|]; [|reflexivity].
  cbn [option_map fst]. rewrite <- (IH st1).
  now destruct (spin rest st1) as [[st2 said2]|].
Qed.

Lemma flags_loop (polls : list (list delivery)) :
  Forall (Forall (fun d => forall st,
                      option_map (fun x => flags_of (fst x)) (callback d st)
                      = flags_after d (flags_of st))) polls ->
  forall st,
    option_map (fun x => flags_of (fst x)) (wait_ready polls st)
    = flags_after_loop flags_after polls (flags_of st).
Proof.
  induction 1 as [|pending later Hp _ IH]; intros st;
    destruct (gps_ready st && map_ready st) eqn:Hready.
  - rewrite wait_ready_ready by exact Hready. simpl. now rewrite Hready.
  - rewrite wait_ready_nil by exact Hready. simpl. now rewrite Hready.
  - rewrite wait_ready_ready by exact Hready. simpl. now rewrite Hready.
  - rewrite wait_ready_cons by exact Hready.
    cbn [flags_after_loop flags_of fst snd]. rewrite Hready.
    change (gps_ready st, map_ready st) with (flags_of st).
    rewrite <- (flags_available pending Hp st).
    change (spinOnce pending st) with (spin pending st).
    destruct (spin pending st) as [[st1 said1]|]; [|reflexivity].
    cbn [option_map fst]. rewrite <- (IH st1).
    now destruct (wait_ready later st1) as [[st2 said2]|].
Qed.

Lemma flags_callback (d : delivery) : forall st,
  option_map (fun x => flags_of (fst x)) (callback d st)
  = flags_after d (flags_of st).
Proof.
  induction d as [f|msg polls IH] using delivery_nested_ind; intros st.
  - cbn [callback flags_after option_map]. now rewrite dispatch_flags_of.
  - rewrite callback_scan. unfold pc_callback. cbn [flags_after].
    rewrite <- (flags_loop polls IH st).
    destruct (wait_ready polls st) as [[st1 said1]|]; [|reflexivity].
    pose proof (pc_process_flags msg st1) as E.
    destruct (pc_process msg st1) as [st2 said2]. cbn [option_map fst] in *.
    now rewrite E.
Qed.

Lemma wait_ready_flags polls st :
  option_map (fun x => flags_of (fst x)) (wait_ready polls st)
  = flags_after_loop flags_after polls (flags_of st).
Proof.
  apply flags_loop. apply Forall_forall. intros p _.
  apply Forall_forall. intros d _. apply flags_callback.
Qed.

(** Property X1.  Whether the waiting loop of a scan ends depends only on
    the flags and on what its polls find pending.  While no scan is pending,
    it never ends exactly when, after everything its polls find pending, a
    position message is still missing or a map message is still
    missing. *)
Theorem wait_ready_blocks polls st :
  (wait_ready polls st = None
   <-> flags_after_loop flags_after polls (flags_of st) = None)
  /\ (forallb (forallb is_feed) polls = true ->
      (wait_ready polls st = None
       <-> (gps_ready st || existsb is_fix_delivery (List.concat polls))
           && (map_ready st || existsb is_map_delivery (List.concat polls))
           = false)).
Proof.
  split.
  { rewrite <- wait_ready_flags.
    destruct (wait_ready polls st); simpl; split; congruence. }
  revert st. induction polls as [|pending polls IH]; intros st Hfeeds;
    destruct (gps_ready st && map_ready st) eqn:Hready.
  - rewrite wait_ready_ready by exact Hready. simpl.
    rewrite !orb_false_r, Hready. split; discriminate.
  - rewrite wait_ready_nil by exact Hready. simpl.
    rewrite !orb_false_r, Hready. split; reflexivity.
  - rewrite wait_ready_ready by exact Hready.
    apply andb_prop in Hready. destruct Hready as [-> ->]. simpl.
    split; discriminate.
  - simpl in Hfeeds. apply andb_prop in Hfeeds. destruct Hfeeds as [Hp Hps].
    rewrite wait_ready_cons by exact Hready.
    destruct (spinOnce_flags pending st Hp) as (st1 & said1 & -> & Hg & Hm).
    specialize (IH st1 Hps). rewrite Hg, Hm in IH.
    cbn [List.concat]. rewrite !existsb_app, !orb_assoc.
    destruct (wait_ready polls st1) as [[st2 said2]|].
    + split; [discriminate|]. intros H. apply IH in H. discriminate.
    + split; [|reflexivity]. intros _. now apply IH.
Qed.

(** *** Once ready, nothing blocks *)

Lemma pc_process_ready msg st :
  gps_ready (fst (pc_process msg st)) = gps_ready st
  /\ map_ready (fst (pc_process msg st)) = map_ready st.
Proof.
  pose proof (pc_process_state msg st) as S. cbv zeta in S.
  destruct S as (_ & _ & _ & _ & S5 & S6 & _). split; assumption.
Qed.

(** Property X2.  Once a map and a position have been received, every further
    sequence of deliveries is processed to its end, and what the scans
    would find pending while waiting is never looked at. *)
Theorem spin_ready_never_blocks ds : forall st,
  gps_ready st = true -> map_ready st = true ->
  spin ds st = spin (map without_polls ds) st
  /\ exists st' tr, spin ds st = Some (st', tr)
                    /\ gps_ready st' = true /\ map_ready st' = true.
Proof.
  induction ds as [|d ds IH]; intros st Hg Hm.
  - simpl. split; [reflexivity|]. eauto.
  - cbn [map]. rewrite !spin_cons.
    destruct d as [f|msg polls]; cbn [without_polls].
    + cbn [callback].
      destruct (dispatch_flags f st) as [Hg1 Hm1].
      destruct (dispatch f st) as [st1 said1]. simpl in Hg1, Hm1.
      rewrite Hg in Hg1. rewrite Hm in Hm1. simpl in Hg1, Hm1.
      destruct (IH st1 Hg1 Hm1) as (E & st2 & tr2 & Hs & Hg2 & Hm2).
      rewrite <- E, Hs. split; [reflexivity|]. eauto.
    + rewrite !callback_scan. unfold pc_callback.
      assert (Hw : forall p, wait_ready p st = Some (st, [])).
      { intros p. apply wait_ready_ready. now rewrite Hg, Hm. }
      rewrite !Hw.
      destruct (pc_process_ready msg st) as [Hg1 Hm1].
      destruct (pc_process msg st) as [st1 said1]. simpl in Hg1, Hm1.
      rewrite Hg in Hg1. rewrite Hm in Hm1.
      destruct (IH st1 Hg1 Hm1) as (E & st2 & tr2 & Hs & Hg2 & Hm2).
      rewrite <- E, Hs. split; [reflexivity|]. eauto.
Qed.

(** *** What no callback changes *)

(** Property X3.  From any state, no sequence of deliveries changes the
    extrinsics, the two leaf sizes or the state of the file, and none of
    the three flags ever goes back from set to unset. *)
Theorem configuration_kept ds st st' tr :
  spin ds st = Some (st', tr) ->
  car2Lidar st' = car2Lidar st
  /\ mapLeafSize st' = mapLeafSize st /\ scanLeafSize st' = scanLeafSize st
  /\ outfile_is_open st' = outfile_is_open st
  /\ (gps_ready st = true -> gps_ready st' = true)
  /\ (map_ready st = true -> map_ready st' = true)
  /\ (initialied st = true -> initialied st' = true).
Proof.
  intros Hs.
  refine (spin_invariant
            (fun _ s _ =>
               car2Lidar s = car2Lidar st
               /\ mapLeafSize s = mapLeafSize st
               /\ scanLeafSize s = scanLeafSize st
               /\ outfile_is_open s = outfile_is_open st
               /\ (gps_ready st = true -> gps_ready s = true)
               /\ (map_ready st = true -> map_ready s = true)
               /\ (initialied st = true -> initialied s = true))
            _ _ _ ds [] st [] st' tr _ Hs).
  - intros _ s _ f (H1 & H2 & H3 & H4 & H5 & H6 & H7).
    destruct f; simpl; repeat split; auto.
  - intros _ s _ _ H. exact H.
  - intros _ s _ msg (H1 & H2 & H3 & H4 & H5 & H6 & H7) _ _.
    pose proof (pc_process_state msg s) as S. cbv zeta in S.
    destruct S as (S1 & S2 & _ & _ & S5 & S6 & S7 & S8 & S9 & _).
    rewrite S1, S2, S5, S6, S7, S8, S9. repeat split; auto.
  - repeat split; auto.
Qed.

(** Property X4.  The result file is only ever appended to, and only with data
    rows: from any state, the lines after a sequence of deliveries are the
    lines before it followed by rows, one per scan processed when the file
    is open and none when it is not. *)
Theorem outfile_append_only ds st st' tr :
  spin ds st = Some (st', tr) ->
  exists rows,
    outfile st' = outfile st ++ rows
    /\ forallb is_row rows = true
    /\ List.length rows
       = (if outfile_is_open st
          then List.length (scans_from st ds) else 0%nat).
Proof.
  intros Hs.
  refine (proj2 (spin_invariant
            (fun ms s _ =>
               outfile_is_open s = outfile_is_open st
               /\ exists rows,
                   outfile s = outfile st ++ rows
                   /\ forallb is_row rows = true
                   /\ List.length rows
                      = (if outfile_is_open st then List.length ms else 0%nat))
            _ _ _ ds [] st [] st' tr _ Hs)).
  - intros ms s _ f H. destruct f; exact H.
  - intros ms s _ _ H. exact H.
  - intros ms s _ msg (Ho & rows & Hr & Hall & Hlen) _ _.
    pose proof (pc_process_state msg s) as S. cbv zeta in S.
    destruct S as (_ & _ & _ & _ & _ & _ & _ & S8 & _ & _ & _ & _ & S13).
    rewrite S8, S13, Ho. split; [reflexivity|].
    unfold insert_line. destruct (outfile_is_open st).
    + eexists (rows ++ [_]). rewrite Hr, app_assoc. split; [reflexivity|].
      rewrite forallb_app, Hall, !length_app, Hlen. simpl. split; reflexivity.
    + exists rows. auto.
  - split; [reflexivity|]. exists []. rewrite app_nil_r.
    destruct (outfile_is_open st); auto.
Qed.

(** *** The heading search without assumptions on the scores *)

Lemma dlt_true_not_nan (a b : double) : dlt a b = true -> is_nan a = false.
Proof. destruct a; try reflexivity. discriminate. Qed.

Lemma select_from_candidates outs :
  select outs = (FLT_MAX, Identity)
  \/ exists o, In o outs
               /\ select outs = (float_of_double (snd o), fst o)
               /\ is_nan (snd o) = false.
Proof.
  induction outs as [|x outs IH] using rev_ind; [now left|].
  rewrite select_snoc. unfold pick.
  destruct (dlt (snd x) (double_of_float (fst (select outs)))) eqn:E.
  - right. exists x. split; [apply in_or_app; right; now left|].
    split; [reflexivity|]. eapply dlt_true_not_nan; eauto.
  - destruct IH as [IH|(o & Hin & Hs & Hn)]; [now left|].
    right. exists o. split; [apply in_or_app; now left|]. auto.
Qed.

(** Property X5.  Whatever the registrar returns, the heading search ends with the
    identity, or with the transform returned for one of the headings whose
    score was a number (a NaN score is never taken). *)
Theorem heading_search_pose_origin src tgt gps g0 :
  min_pose (heading_search src tgt gps g0) = Identity
  \/ exists yaw,
      In yaw headings
      /\ min_pose (heading_search src tgt gps g0)
         = fst (boot_out (boot_call src tgt gps yaw))
      /\ is_nan (snd (boot_out (boot_call src tgt gps yaw))) = false.
Proof.
  rewrite heading_search_select.
  destruct (select_from_candidates
              (map (fun y => boot_out (boot_call src tgt gps y)) headings))
    as [H|(o & Hin & H & Hn)]; rewrite H; simpl.
  - now left.
  - right. apply (proj1 (in_map_iff _ _ _)) in Hin.
    destruct Hin as (yaw & <- & Hy). eauto.
Qed.

(** *** Construction *)

(** Property X6.  The constructor returns a node exactly when the translation has
    at least 3 and the rotation at least 4 elements, and it logs the error
    exactly when the counts are not 3 and 4.  A node it returns has no flag
    set, the counter and the total at 0, the identity as guess, the empty
    cloud as map, and the leaf sizes of the parameters, 0.3 where one is
    not set. *)
Theorem constructor_outcome ps open_ok :
  let trans := param (baselink2lidar_trans ps) [] in
  let rot := param (baselink2lidar_rot ps) [] in
  ((exists L0, snd (Localizer_new ps open_ok) = Returns L0)
   <-> (3 <= List.length trans /\ 4 <= List.length rot)%nat)
  /\ (In (ROS_LOG ERROR transform_not_set_properly)
         (fst (Localizer_new ps open_ok))
      <-> (List.length trans <> 3 \/ List.length rot <> 4)%nat)
  /\ (forall L0, snd (Localizer_new ps open_ok) = Returns L0 ->
        fresh L0 /\ init_guess L0 = Identity /\ map_points L0 = empty_cloud
        /\ outfile_is_open L0 = open_ok
        /\ mapLeafSize L0 = param (param_mapLeafSize ps) leaf_default
        /\ scanLeafSize L0 = param (param_scanLeafSize ps) leaf_default).
Proof.
  intros trans rot. unfold Localizer_new. fold trans rot.
  generalize dependent rot. generalize dependent trans. intros trans rot.
  split; [|split].
  - destruct trans as [|tx [|ty [|tz trest]]];
      try (simpl; split; [intros [L0 H]; discriminate|intros [? ?]; lia]).
    destruct rot as [|rx [|ry [|rz [|rw rrest]]]];
      try (simpl; split; [intros [L0 H]; discriminate|intros [? ?]; lia]).
    simpl. split; [intros _; lia|intros _; eauto].
  - destruct (Nat.eqb_spec (List.length trans) 3) as [Et|Et];
      destruct (Nat.eqb_spec (List.length rot) 4) as [Er|Er];
      simpl negb; simpl orb.
    + split; [|intros [?|?]; contradiction].
      intros Hin. exfalso.
      destruct (bind _ _); simpl in Hin;
        repeat (destruct Hin as [Hin|Hin]; [discriminate|]); exact Hin.
    + split; [auto|]. intros _.
      destruct (bind _ _); simpl; auto.
    + split; [auto|]. intros _.
      destruct (bind _ _); simpl; auto.
    + split; [auto|]. intros _.
      destruct (bind _ _); simpl; auto.
  - intros L0 H. destruct (bind _ _) as [L|e] eqn:Eb; simpl in H;
      [|discriminate].
    inversion H; subst L0. clear H.
    unfold bind in Eb.
    repeat match type of Eb with
           | match at_ ?v ?i with _ => _ end = _ =>
               destruct (at_ v i); [|discriminate]
           end.
    inversion Eb; subst L. unfold fresh. simpl. repeat split.
Qed.

(** *** What one processed scan emits *)

Lemma search_fold_entries src tgt gps ys s :
  exists said,
    s_log (fold_left (search_body src tgt gps) ys s) = s_log s ++ said
    /\ forallb search_entry said = true.
Proof.
  revert s. induction ys as [|y ys IH]; intros s; simpl.
  - exists []. now rewrite app_nil_r.
  - destruct (IH (search_body src tgt gps s y)) as (said & Hlog & Hall).
    rewrite Hlog. unfold search_body at 1.
    destruct (dlt _ _); simpl s_log; rewrite <- !app_assoc; eexists;
      (split; [reflexivity|]); simpl; exact Hall.
Qed.

(** The trace of a processed scan: what the heading search says (when it
    runs), then the steady-state call and the three publications on its
    result, then the line of frame 396. *)
Lemma pc_process_said msg st :
  let fs := voxel_filter (scanLeafSize st) (fromROSMsg msg) in
  let fm := voxel_filter (mapLeafSize st) (map_points st) in
  let bs := if initialied st then []
            else map (boot_call fs fm (gps_point st)) headings in
  let g := if initialied st then init_guess st
           else snd (select (map boot_out bs)) in
  let c := {| source := fs; target := fm; guess := g |} in
  let r := fst (track_out c) in
  exists pre,
    snd (pc_process msg st)
    = pre ++ [IcpAlign c; PublishPoints r msg; SendTransformInverse r;
              PublishLidarPose r]
          ++ (if int_wrap (cnt st + 1) =? 396
              then [ROS_LOG INFO ITRI_bag_finished] else [])
    /\ Forall (fun e => search_entry e = true
                        \/ e = ROS_LOG INFO Get_initial_guess) pre
    /\ (initialied st = true -> pre = []).
Proof.
  unfold pc_process, align_map, find_initial_guess.
  destruct (initialied st) eqn:Hinit; simpl.
  - exists []. repeat split. constructor.
  - rewrite heading_search_select. unfold heading_search.
    destruct (search_fold_entries
                (voxel_filter (scanLeafSize st) (fromROSMsg msg))
                (voxel_filter (mapLeafSize st) (map_points st))
                (gps_point st) headings
                {| s_init_guess := init_guess st; min_score := FLT_MAX;
                   min_pose := Identity; s_log := [] |})
      as (said & Hlog & Hall).
    simpl in Hlog. rewrite Hlog.
    exists (said ++ [ROS_LOG INFO Get_initial_guess]).
    split; [now rewrite <- !app_assoc|]. split; [|discriminate].
    apply Forall_app. split; [|repeat constructor; now right].
    apply Forall_forall. intros e He. left.
    rewrite forallb_forall in Hall. now apply Hall.
Qed.

Lemma search_entries_silent pre :
  Forall (fun e => search_entry e = true
                   \/ e = ROS_LOG INFO Get_initial_guess) pre ->
  published_points pre = [] /\ sent_transforms pre = []
  /\ published_poses pre = [] /\ filter is_finished pre = [].
Proof.
  induction 1 as [|e pre He _ (IH1 & IH2 & IH3 & IH4)]; [now repeat split|].
  unfold published_points, sent_transforms, published_poses. simpl.
  fold (published_points pre) (sent_transforms pre) (published_poses pre).
  rewrite IH1, IH2, IH3, IH4.
  destruct He as [He| ->]; [|now repeat split].
  destruct e as [| | | |sv l| | | | |]; try discriminate; try now repeat split.
  destruct sv; try discriminate. destruct l; try discriminate; now repeat split.
Qed.

Lemma combine_snoc {A B : Type} (l : list A) (l' : list B) a b :
  List.length l = List.length l' ->
  combine (l ++ [a]) (l' ++ [b]) = combine l l' ++ [(a, b)].
Proof.
  revert l'. induction l as [|x l IH]; intros [|y l'] H; try discriminate.
  - reflexivity.
  - simpl. f_equal. apply IH. simpl in H. congruence.
Qed.

Lemma dispatch_silent f st :
  published_points (snd (dispatch f st)) = []
  /\ sent_transforms (snd (dispatch f st)) = []
  /\ published_poses (snd (dispatch f st)) = []
  /\ filter is_finished (snd (dispatch f st)) = [].
Proof. destruct f; simpl; [|destruct (initialied st)]; now repeat split. Qed.

Lemma published_points_app a b :
  published_points (a ++ b) = published_points a ++ published_points b.
Proof. apply flat_map_app. Qed.

Lemma sent_transforms_app a b :
  sent_transforms (a ++ b) = sent_transforms a ++ sent_transforms b.
Proof. apply flat_map_app. Qed.

Lemma published_poses_app a b :
  published_poses (a ++ b) = published_poses a ++ published_poses b.
Proof. apply flat_map_app. Qed.

Lemma pc_process_track_calls msg st :
  let fs := voxel_filter (scanLeafSize st) (fromROSMsg msg) in
  let fm := voxel_filter (mapLeafSize st) (map_points st) in
  let bs := if initialied st then []
            else map (boot_call fs fm (gps_point st)) headings in
  let g := if initialied st then init_guess st
           else snd (select (map boot_out bs)) in
  track_calls (snd (pc_process msg st))
  = [{| source := fs; target := fm; guess := g |}].
Proof.
  pose proof (pc_process_trace msg st) as [T _]. cbv zeta in T.
  cbv zeta. unfold track_calls. rewrite T.
  exact (proj2 (calls_of_registrations _ [_])).
Qed.

Lemma publications_run ds st L tr :
  spin ds st = Some (L, tr) ->
  let results := map (fun c => fst (track_out c)) (track_calls tr) in
  published_points tr = combine results (scans_from st ds)
  /\ sent_transforms tr = results
  /\ published_poses tr = results
  /\ List.length results = List.length (scans_from st ds).
Proof.
  intros Hs results. subst results.
  refine (spin_invariant
            (fun ms _ h =>
               let results := map (fun c => fst (track_out c)) (track_calls h) in
               published_points h = combine results ms
               /\ sent_transforms h = results
               /\ published_poses h = results
               /\ List.length results = List.length ms)
            _ _ _ ds [] st [] L tr _ Hs).
  - intros ms s h f (H1 & H2 & H3 & H4). cbv zeta.
    destruct (dispatch_silent f s) as (D1 & D2 & D3 & _).
    rewrite published_points_app, sent_transforms_app, published_poses_app,
      track_calls_app, D1, D2, D3.
    unfold track_calls at 2 4 6 8. rewrite dispatch_registrations. simpl.
    rewrite !app_nil_r. auto.
  - intros ms s h l (H1 & H2 & H3 & H4). cbv zeta.
    rewrite published_points_app, sent_transforms_app, published_poses_app,
      track_calls_app. simpl. rewrite !app_nil_r. auto.
  - intros ms s h msg (H1 & H2 & H3 & H4) _ _. cbv zeta.
    pose proof (pc_process_track_calls msg s) as Ht. cbv zeta in Ht.
    destruct (pc_process_said msg s) as (pre & Hsaid & Hpre & _).
    cbv zeta in Hsaid.
    destruct (search_entries_silent pre Hpre) as (P1 & P2 & P3 & _).
    rewrite published_points_app, sent_transforms_app, published_poses_app,
      track_calls_app, Ht.
    rewrite Hsaid.
    rewrite !published_points_app, !sent_transforms_app, !published_poses_app,
      P1, P2, P3.
    destruct (int_wrap (cnt s + 1) =? 396); simpl;
      rewrite map_app; simpl;
      (split; [rewrite H1; symmetry; apply combine_snoc; exact H4|]);
      (split; [now rewrite H2|]); (split; [now rewrite H3|]);
      rewrite !length_app, H4; reflexivity.
  - cbv zeta. simpl. auto.
Qed.

(** Property X7.  Every processed scan is followed by exactly one transformed
    cloud, one broadcast transform and one published pose, each built from
    the result of that scan's steady-state registration (never from a
    result of the heading search), and the cloud from the scan message as
    received; they come in the order in which the scans leave the waiting
    loop and are processed, from whatever state the node starts. *)
Theorem publications_per_scan ds st L tr :
  spin ds st = Some (L, tr) ->
  let results := map (fun c => fst (track_out c)) (track_calls tr) in
  published_points tr = combine results (scans_from st ds)
  /\ sent_transforms tr = results
  /\ published_poses tr = results
  /\ List.length results = List.length (scans_from st ds).
Proof. exact (publications_run ds st L tr). Qed.

(** *** The order in which waiting scans are processed *)

Lemma visit_loop_nil visit r : visit_loop visit [] r = ([], r).
Proof. simpl. now destruct (fst r && snd r). Qed.





Lemma pile_left polls ss : forall r,
  forallb (forallb is_feed) polls = true ->
  fst r && snd r = false ->
  fst (visit_loop (visit leaving) (pile ss polls) r) = rev ss.
Proof.
  induction ss as [|s ss IH]; intros r Hfeeds Hr; cbn [pile].
  - apply (feeds_loop leaving polls Hfeeds r).
  - rewrite visit_loop_cons by exact Hr. cbn [fst].
    rewrite visit_available_cons, visit_scan. cbn [visit_available fst snd].
    rewrite visit_loop_nil. cbn [fst]. rewrite !app_nil_r.
    unfold leaving. now rewrite IH.
Qed.

Lemma pile_entered polls ss : forall r,
  forallb (forallb is_feed) polls = true ->
  fst r && snd r = false ->
  fst (visit_loop (visit entering) (pile ss polls) r) = ss.
Proof.
  induction ss as [|s ss IH]; intros r Hfeeds Hr; cbn [pile].
  - apply (feeds_loop entering polls Hfeeds r).
  - rewrite visit_loop_cons by exact Hr. cbn [fst].
    rewrite visit_available_cons, visit_scan. cbn [visit_available fst snd].
    rewrite visit_loop_nil. cbn [fst]. rewrite !app_nil_r.
    unfold entering. now rewrite IH.
Qed.

Lemma map_snd_combine {A B : Type} (l : list A) : forall (l' : list B),
  List.length l = List.length l' -> map snd (combine l l') = l'.
Proof.
  induction l as [|a l IH]; intros [|b l'] H; try discriminate; [reflexivity|].
  simpl. f_equal. apply IH. now inversion H.
Qed.

(** Property X15.  Scans that arrive while the node has no map or no position
    are processed latest first: when the scan [s] waits and the scans [ss]
    arrive one after the other before the map and the position are there,
    the clouds published are those of [ss] in reverse order and then that
    of [s]. *)
Theorem waiting_scans_latest_first s ss polls st L tr :
  gps_ready st && map_ready st = false ->
  forallb (forallb is_feed) polls = true ->
  spin [Scan s (pile ss polls)] st = Some (L, tr) ->
  arrivals_from st [Scan s (pile ss polls)] = s :: ss
  /\ map snd (published_points tr) = rev (s :: ss).
Proof.
  intros Hr Hfeeds Hs.
  assert (Hleft : scans_from st [Scan s (pile ss polls)] = rev (s :: ss)).
  { unfold scans_from. rewrite visit_available_cons, visit_scan.
    cbn [visit_available fst snd]. rewrite app_nil_r.
    unfold leaving. now rewrite pile_left. }
  split.
  - unfold arrivals_from. rewrite visit_available_cons, visit_scan.
    cbn [visit_available fst snd]. rewrite app_nil_r.
    unfold entering. now rewrite pile_entered.
  - destruct (publications_run _ _ _ _ Hs) as (Hp & _ & _ & Hlen).
    rewrite Hp, map_snd_combine, Hleft by exact Hlen. reflexivity.
Qed.

(** *** The counter *)

Lemma finished_app a b :
  filter is_finished (a ++ b) = filter is_finished a ++ filter is_finished b.
Proof. apply filter_app. Qed.

(** Property X8.  In a run of at most [INT_MAX] scans the line "ITRI bag finished"
    is printed once, when the 396th scan has been processed, and not at
    all in a shorter run. *)
Theorem bag_finished_logged_once ps open_ok log L0 ds L tr :
  Localizer_new ps open_ok = (log, Returns L0) ->
  spin ds L0 = Some (L, tr) ->
  Z.of_nat (List.length (scans ds)) <= INT_MAX ->
  filter is_finished tr
  = if 396 <=? Z.of_nat (List.length (scans ds))
    then [ROS_LOG INFO ITRI_bag_finished] else [].
Proof.
  intros Hnew Hs Hn.
  destruct (Localizer_new_fresh _ _ _ _ Hnew) as (Hf & _).
  pose proof Hf as (_ & _ & _ & Hc & _).
  rewrite <- (scans_from_fresh L0 ds Hf) in *.
  refine (proj2 (spin_invariant
            (fun ms s h =>
               cnt s = int_wrap (Z.of_nat (List.length ms))
               /\ (Z.of_nat (List.length ms) <= INT_MAX ->
                   filter is_finished h
                   = if 396 <=? Z.of_nat (List.length ms)
                     then [ROS_LOG INFO ITRI_bag_finished] else []))
            _ _ _ ds [] L0 [] L tr _ Hs) Hn).
  - intros ms s h f (H1 & H2).
    destruct (dispatch_silent f s) as (_ & _ & _ & D).
    rewrite finished_app, D, app_nil_r.
    split; [|exact H2]. destruct f; exact H1.
  - intros ms s h l (H1 & H2). rewrite finished_app.
    cbn [filter is_finished]. rewrite app_nil_r. auto.
  - intros ms s h msg (H1 & H2) _ _.
    pose proof (pc_process_state msg s) as S. cbv zeta in S.
    destruct S as (_ & _ & _ & _ & _ & _ & _ & _ & _ & _ & S11 & _).
    assert (Hlen : Z.of_nat (List.length (ms ++ [msg]))
                   = Z.of_nat (List.length ms) + 1).
    { rewrite length_app. simpl. lia. }
    assert (Hid : int_wrap (cnt s + 1) = int_wrap (Z.of_nat (List.length ms) + 1)).
    { now rewrite H1, int_wrap_succ. }
    rewrite Hlen.
    split; [now rewrite S11|].
    intros Hbound.
    destruct (pc_process_said msg s) as (pre & Hsaid & Hpre & _).
    cbv zeta in Hsaid.
    destruct (search_entries_silent pre Hpre) as (_ & _ & _ & P).
    rewrite finished_app, Hsaid, !finished_app, P, H2 by lia.
    rewrite Hid, int_wrap_small by (unfold INT_MAX in *; lia).
    cbn [filter is_finished app].
    destruct (Z.eqb_spec (Z.of_nat (List.length ms) + 1) 396) as [E|E];
      cbn [filter is_finished app];
      destruct (Z.leb_spec 396 (Z.of_nat (List.length ms)));
      destruct (Z.leb_spec 396 (Z.of_nat (List.length ms) + 1));
      try lia; reflexivity.
  - split; [exact Hc|]. intros _. reflexivity.
Qed.

(** Property X9.  After a run of [N <= INT_MAX] scans [get_cnt] returns [N],
    whether or not the result file could be opened. *)
Theorem get_cnt_counts_scans ps open_ok log L0 ds L tr :
  Localizer_new ps open_ok = (log, Returns L0) ->
  spin ds L0 = Some (L, tr) ->
  Z.of_nat (List.length (scans ds)) <= INT_MAX ->
  get_cnt L = Z.of_nat (List.length (scans ds)).
Proof.
  intros Hnew Hs Hn.
  destruct (Localizer_new_fresh _ _ _ _ Hnew) as (Hf & _).
  pose proof (tracking_run _ _ _ _ Hf Hs) as (_ & _ & _ & _ & _ & Hc & _).
  unfold get_cnt. rewrite Hc. apply int_wrap_small. unfold INT_MAX in *. lia.
Qed.

(** *** The order of events *)

Section InvariantWithFlags.

Variable Inv : Localizer -> list effect -> Prop.

Hypothesis Inv_dispatch : forall st h f,
    Inv st h -> Inv (fst (dispatch f st)) (h ++ snd (dispatch f st)).
Hypothesis Inv_warn_map : forall st h,
    Inv st h -> gps_ready st = true -> map_ready st = false ->
    Inv st (h ++ [ROS_LOG WARN waiting_for_map_data]).
Hypothesis Inv_warn_gps : forall st h,
    Inv st h -> map_ready st = true -> gps_ready st = false ->
    Inv st (h ++ [ROS_LOG WARN waiting_for_gps_data]).
Hypothesis Inv_scan : forall st h msg,
    Inv st h -> gps_ready st = true -> map_ready st = true ->
    Inv (fst (pc_process msg st)) (h ++ snd (pc_process msg st)).

Lemma spin_invariant_flags ds : forall st h st' said,
    Inv st h -> spin ds st = Some (st', said) -> Inv st' (h ++ said).
Proof.
  intros st h st' said HI Hs.
  refine (proj1 (proj2 (run_invariant (fun _ => Inv) _ _ _ _))
                _ _ _ _ Hs [] _ HI); intros; auto.
Qed.

End InvariantWithFlags.

Lemma seen_in_app a b : seen_in (a ++ b) = fold_left observe b (seen_in a).
Proof. unfold seen_in. apply fold_left_app. Qed.

Lemma orderly_app s a b :
  orderly s (a ++ b) <-> orderly s a /\ orderly (fold_left observe a s) b.
Proof.
  revert s. induction a as [|e a IH]; intros s; simpl.
  - tauto.
  - rewrite IH. tauto.
Qed.

Lemma observe_latest tr : forall s l,
  seen_latest s = l ->
  seen_latest (fold_left observe tr s) = fold_left note tr l.
Proof.
  induction tr as [|e tr IH]; intros s l H; simpl; [exact H|].
  apply IH. simpl. now rewrite H.
Qed.

Lemma seen_latest_of tr : seen_latest (seen_in tr) = latest_of tr.
Proof. unfold seen_in, latest_of. now apply observe_latest. Qed.

Lemma observe_started tr : forall s,
  seen_started (fold_left observe tr s)
  = seen_started s || existsb is_registration tr.
Proof.
  induction tr as [|e tr IH]; intros s; simpl.
  - now rewrite orb_false_r.
  - rewrite IH. simpl. now rewrite orb_assoc.
Qed.

Lemma not_started_no_registration tr :
  seen_started (seen_in tr) = false -> registrations tr = [].
Proof.
  unfold seen_in. rewrite observe_started. simpl.
  induction tr as [|e tr IH]; simpl; [reflexivity|].
  intros H. apply orb_false_elim in H. destruct H as [He Ht].
  rewrite (IH Ht). destruct e; try discriminate; reflexivity.
Qed.

Lemma calm_latest es : forall s,
  forallb calm es = true ->
  seen_latest (fold_left observe es s) = seen_latest s.
Proof.
  induction es as [|e es IH]; intros s H; simpl; [reflexivity|].
  simpl in H. apply andb_prop in H. destruct H as [He Hes].
  rewrite (IH _ Hes). destruct e; try discriminate; reflexivity.
Qed.

(** Calm entries are timely once a map and a position are there. *)
Lemma orderly_calm es : forall s,
  latest_map (seen_latest s) <> None -> latest_fix (seen_latest s) <> None ->
  forallb calm es = true -> orderly s es.
Proof.
  induction es as [|e es IH]; intros s Hm Hf H; simpl; [exact I|].
  simpl in H. apply andb_prop in H. destruct H as [He Hes].
  split.
  - destruct e as [| | | |sv l| | | | |]; try discriminate; simpl; auto.
    destruct sv; try discriminate. exact I.
  - apply IH; auto;
      destruct e; try discriminate; simpl; assumption.
Qed.

Lemma search_entry_calm pre :
  Forall (fun e => search_entry e = true
                   \/ e = ROS_LOG INFO Get_initial_guess) pre ->
  forallb calm pre = true.
Proof.
  induction 1 as [|e pre He _ IH]; [reflexivity|].
  simpl. rewrite IH, andb_true_r.
  destruct He as [He| ->]; [|reflexivity].
  destruct e as [| | | |sv l| | | | |]; try discriminate; try reflexivity.
  destruct sv; try discriminate; reflexivity.
Qed.

Lemma pc_process_calm msg st :
  forallb calm (snd (pc_process msg st)) = true
  /\ existsb is_registration (snd (pc_process msg st)) = true.
Proof.
  destruct (pc_process_said msg st) as (pre & Hsaid & Hpre & _).
  cbv zeta in Hsaid. rewrite Hsaid.
  rewrite !forallb_app, !existsb_app, (search_entry_calm pre Hpre).
  split.
  - destruct (_ =? 396); reflexivity.
  - simpl. apply orb_true_r.
Qed.

Lemma missing_is_none {A : Type} (o : option A) (b : bool) :
  (b = true <-> o <> None) -> b = false -> o = None.
Proof.
  intros [_ H] Hb. destruct o; [|reflexivity].
  rewrite H in Hb; [discriminate|discriminate].
Qed.

Lemma in_step_start L0 : fresh L0 -> in_step L0 [].
Proof.
  intros (Hi & Hg & Hm & _). unfold in_step. simpl. rewrite Hi, Hg, Hm.
  repeat split; try discriminate; try (intros H; now contradiction H).
Qed.

Lemma in_step_dispatch st h f :
  in_step st h -> in_step (fst (dispatch f st)) (h ++ snd (dispatch f st)).
Proof.
  intros (Hg & Hm & Hi & Hr & Ho). unfold in_step.
  rewrite seen_in_app. destruct f as [m|p]; simpl fst; simpl snd.
  - simpl. rewrite orb_false_r.
    split; [exact Hg|].
    split; [split; [discriminate|reflexivity]|].
    split; [exact Hi|].
    split; [intros H; destruct (Hr H); auto|].
    apply orderly_app. split; [exact Ho|]. simpl. auto.
  - assert (E : fold_left observe
                  (GpsCallback p ::
                     (if negb (initialied st)
                      then [PublishGpsPose p; SendGpsTransform p] else []))
                  (seen_in h)
                = observe (seen_in h) (GpsCallback p)).
    { destruct (initialied st); simpl; [reflexivity|].
      unfold observe; simpl. now rewrite !orb_false_r. }
    rewrite E. simpl. rewrite orb_false_r.
    split; [split; [discriminate|reflexivity]|].
    split; [exact Hm|].
    split; [exact Hi|].
    split; [intros H; destruct (Hr H); auto|].
    apply orderly_app. split; [exact Ho|].
    fold (seen_in h).
    destruct (initialied st); simpl; [auto|].
    rewrite orb_false_r, <- Hi. repeat split; auto.
Qed.

Lemma in_step_warn_map st h :
  in_step st h -> gps_ready st = true -> map_ready st = false ->
  in_step st (h ++ [ROS_LOG WARN waiting_for_map_data]).
Proof.
  intros (Hg & Hm & Hi & Hr & Ho) Hgr Hmr. unfold in_step.
  rewrite seen_in_app. simpl. rewrite orb_false_r.
  repeat split; try tauto.
  apply orderly_app. split; [exact Ho|]. fold (seen_in h). simpl.
  split; [|exact I]. split.
  - rewrite <- Hi. destruct (initialied st); [|reflexivity].
    destruct Hr; congruence.
  - left. split; [reflexivity|]. split; [now apply Hg|].
    now apply (missing_is_none _ _ Hm).
Qed.

Lemma in_step_warn_gps st h :
  in_step st h -> map_ready st = true -> gps_ready st = false ->
  in_step st (h ++ [ROS_LOG WARN waiting_for_gps_data]).
Proof.
  intros (Hg & Hm & Hi & Hr & Ho) Hmr Hgr. unfold in_step.
  rewrite seen_in_app. simpl. rewrite orb_false_r.
  repeat split; try tauto.
  apply orderly_app. split; [exact Ho|]. fold (seen_in h). simpl.
  split; [|exact I]. split.
  - rewrite <- Hi. destruct (initialied st); [|reflexivity].
    destruct Hr; congruence.
  - right. split; [reflexivity|]. split; [now apply Hm|].
    now apply (missing_is_none _ _ Hg).
Qed.

Lemma in_step_scan st h msg :
  in_step st h -> gps_ready st = true -> map_ready st = true ->
  in_step (fst (pc_process msg st)) (h ++ snd (pc_process msg st)).
Proof.
  intros (Hg & Hm & Hi & Hr & Ho) Hgr Hmr.
  pose proof (pc_process_state msg st) as S. cbv zeta in S.
  destruct S as (_ & _ & _ & _ & S5 & S6 & _ & _ & S9 & _).
  destruct (pc_process_calm msg st) as [Hcalm Hreg].
  unfold in_step. rewrite seen_in_app, S5, S6, S9.
  rewrite (calm_latest _ _ Hcalm), observe_started, Hreg, orb_true_r.
  repeat split; try tauto.
  apply orderly_app. split; [exact Ho|]. fold (seen_in h).
  apply orderly_calm; [now apply Hm | now apply Hg | exact Hcalm].
Qed.

Lemma in_step_run L0 ds L tr :
  fresh L0 -> spin ds L0 = Some (L, tr) -> in_step L tr.
Proof.
  intros Hf Hs.
  exact (spin_invariant_flags in_step in_step_dispatch in_step_warn_map
           in_step_warn_gps in_step_scan ds L0 [] L tr (in_step_start _ Hf) Hs).
Qed.

Lemma orderly_split pre e post :
  orderly nothing_seen (pre ++ e :: post) -> timely (seen_in pre) e.
Proof.
  intros H. apply orderly_app in H. destruct H as [_ [H _]]. exact H.
Qed.

(** Property X10.  No registrar is called before both a map message and a position
    message have been handled. *)
Theorem registration_after_map_and_fix ps open_ok log L0 ds L tr :
  Localizer_new ps open_ok = (log, Returns L0) ->
  spin ds L0 = Some (L, tr) ->
  forall pre e post,
    tr = pre ++ e :: post -> is_registration e = true ->
    latest_map (latest_of pre) <> None /\ latest_fix (latest_of pre) <> None.
Proof.
  intros Hnew Hs pre e post -> He.
  destruct (Localizer_new_fresh _ _ _ _ Hnew) as (Hf & _).
  pose proof (in_step_run _ _ _ _ Hf Hs) as (_ & _ & _ & _ & Ho).
  apply orderly_split in Ho. rewrite <- seen_latest_of.
  destruct e; try discriminate; exact Ho.
Qed.

(** Property X11.  A waiting scan warns about the map only while a position has
    been received and no map, and about the position only while a map has
    been received and no position; with neither received it waits without
    a word.  Warnings come only before the first registrar call, and
    nothing else is ever logged as a warning or an error during a run. *)
Theorem warnings_while_waiting ps open_ok log L0 ds L tr :
  Localizer_new ps open_ok = (log, Returns L0) ->
  spin ds L0 = Some (L, tr) ->
  (forall pre l post,
      tr = pre ++ ROS_LOG WARN l :: post ->
      registrations pre = []
      /\ ((l = waiting_for_map_data
           /\ latest_fix (latest_of pre) <> None
           /\ latest_map (latest_of pre) = None)
          \/ (l = waiting_for_gps_data
              /\ latest_map (latest_of pre) <> None
              /\ latest_fix (latest_of pre) = None)))
  /\ (forall l, ~ In (ROS_LOG ERROR l) tr).
Proof.
  intros Hnew Hs.
  destruct (Localizer_new_fresh _ _ _ _ Hnew) as (Hf & _).
  pose proof (in_step_run _ _ _ _ Hf Hs) as (_ & _ & _ & _ & Ho).
  split.
  - intros pre l post ->. apply orderly_split in Ho.
    rewrite <- seen_latest_of. destruct Ho as [Hst Hl].
    split; [now apply not_started_no_registration|exact Hl].
  - intros l Hin. apply in_split in Hin. destruct Hin as (pre & post & ->).
    apply orderly_split in Ho. exact Ho.
Qed.

(** Property X12.  The pose and the transform of a position message are published
    only before the first registrar call, and they are those of the
    message just handled: once a scan has been processed, position
    messages are no longer published. *)
Theorem fix_published_before_tracking ps open_ok log L0 ds L tr :
  Localizer_new ps open_ok = (log, Returns L0) ->
  spin ds L0 = Some (L, tr) ->
  forall pre e post p,
    tr = pre ++ e :: post ->
    e = PublishGpsPose p \/ e = SendGpsTransform p ->
    registrations pre = [] /\ latest_fix (latest_of pre) = Some p.
Proof.
  intros Hnew Hs pre e post p -> He.
  destruct (Localizer_new_fresh _ _ _ _ Hnew) as (Hf & _).
  pose proof (in_step_run _ _ _ _ Hf Hs) as (_ & _ & _ & _ & Ho).
  apply orderly_split in Ho. rewrite <- seen_latest_of.
  destruct He as [-> | ->]; destruct Ho as [Hp Hst];
    (split; [now apply not_started_no_registration|exact Hp]).
Qed.

(** *** Position messages after the start *)

Lemma alike_refl st : alike st st.
Proof. unfold alike. repeat split. Qed.

Lemma pc_process_alike msg a b :
  alike a b -> initialied a = true ->
  alike (fst (pc_process msg a)) (fst (pc_process msg b))
  /\ snd (pc_process msg a) = snd (pc_process msg b)
  /\ filter (fun e => negb (is_gps_callback e)) (snd (pc_process msg a))
     = snd (pc_process msg a).
Proof.
  intros (A1 & A2 & A3 & A4 & A5 & A6 & A7 & A8 & A9 & A10 & A11 & A12) Hi.
  assert (Hib : initialied b = true) by congruence.
  unfold pc_process, align_map, find_initial_guess.
  rewrite Hi, Hib. simpl.
  rewrite A1, A2, A3, A7, A8, A9, A10, A11, A12.
  split; [unfold alike; simpl; repeat split; assumption|].
  split; [reflexivity|].
  destruct (_ =? 396); reflexivity.
Qed.

Lemma fixes_ignored ds : forall a b a' tr,
  alike a b -> initialied a = true ->
  gps_ready a = true -> map_ready a = true ->
  spin ds a = Some (a', tr) ->
  exists b',
    spin (drop_fixes ds) b
    = Some (b', filter (fun e => negb (is_gps_callback e)) tr)
    /\ alike a' b'.
Proof.
  induction ds as [|d ds IH]; intros a b a' tr Hab Hi Hg Hm Hs.
  - inversion Hs; subst. exists b. split; [reflexivity|exact Hab].
  - rewrite spin_cons in Hs.
    destruct d as [[m|p]|msg polls].
    + cbn [callback dispatch map_callback] in Hs.
      destruct (spin ds (set_map a (fromROSMsg m))) as [[a2 tr2]|] eqn:Hs2;
        [|discriminate].
      inversion Hs; subst.
      assert (Hab2 : alike (set_map a (fromROSMsg m)) (set_map b (fromROSMsg m))).
      { unfold alike in *. simpl. tauto. }
      destruct (IH _ _ _ _ Hab2 Hi Hg eq_refl Hs2) as (b' & Hb & Hab').
      exists b'. split; [|exact Hab'].
      cbn [drop_fixes filter is_fix_delivery negb]. fold (drop_fixes ds).
      rewrite spin_cons. cbn [callback dispatch map_callback].
      rewrite Hb. reflexivity.
    + cbn [callback dispatch] in Hs. unfold gps_callback in Hs.
      rewrite Hi in Hs.
      destruct (spin ds (set_gps a (PointXYZ_of_Point p))) as [[a2 tr2]|] eqn:Hs2;
        [|discriminate].
      inversion Hs; subst.
      assert (Hab2 : alike (set_gps a (PointXYZ_of_Point p)) b).
      { unfold alike in *. simpl. rewrite Hg in Hab. tauto. }
      destruct (IH _ _ _ _ Hab2 Hi eq_refl Hm Hs2) as (b' & Hb & Hab').
      exists b'. split; [|exact Hab'].
      cbn [drop_fixes filter is_fix_delivery negb]. fold (drop_fixes ds).
      exact Hb.
    + rewrite callback_scan in Hs. unfold pc_callback in Hs.
      assert (Hgb : gps_ready b = true)
        by (unfold alike in Hab; intuition congruence).
      assert (Hmb : map_ready b = true)
        by (unfold alike in Hab; intuition congruence).
      assert (Hwa : wait_ready polls a = Some (a, [])).
      { apply wait_ready_ready. now rewrite Hg, Hm. }
      assert (Hwb : wait_ready polls b = Some (b, [])).
      { apply wait_ready_ready. now rewrite Hgb, Hmb. }
      rewrite Hwa in Hs.
      destruct (pc_process_alike msg a b Hab Hi) as (Hab1 & Hsaid & Hfil).
      destruct (pc_process_ready msg a) as [Hg1 Hm1].
      pose proof (pc_process_state msg a) as S. cbv zeta in S.
      destruct S as (_ & _ & _ & _ & _ & _ & _ & _ & Hi1 & _).
      destruct (pc_process msg a) as [a1 said1]. cbn [fst snd] in *.
      destruct (spin ds a1) as [[a2 tr2]|] eqn:Hs2; [|discriminate].
      inversion Hs; subst.
      rewrite Hg in Hg1. rewrite Hm in Hm1.
      destruct (IH _ _ _ _ Hab1 Hi1 Hg1 Hm1 Hs2) as (b' & Hb & Hab').
      exists b'. split; [|exact Hab'].
      cbn [drop_fixes filter is_fix_delivery negb]. fold (drop_fixes ds).
      rewrite spin_cons, callback_scan. unfold pc_callback. rewrite Hwb.
      destruct (pc_process msg b) as [b1 saidb]. cbn [fst snd] in *.
      rewrite Hb, filter_app, Hfil. reflexivity.
Qed.

(** Property X13.  Once the node is initialised, position messages change nothing
    but [gps_point]: leaving them out of any further sequence of deliveries
    gives the same trace apart from the entries of [gps_callback] itself,
    and the same final node apart from [gps_point]. *)
Theorem fixes_after_start_are_ignored ds st st' tr :
  initialied st = true -> gps_ready st = true -> map_ready st = true ->
  spin ds st = Some (st', tr) ->
  exists st'',
    spin (drop_fixes ds) st
    = Some (st'', filter (fun e => negb (is_gps_callback e)) tr)
    /\ alike st' st''.
Proof.
  intros Hi Hg Hm Hs.
  exact (fixes_ignored ds st st st' tr (alike_refl st) Hi Hg Hm Hs).
Qed.
End NodeMore.

(** ** The further properties on concrete runs *)

Module MoreRuns.

Import Toy.

Ltac by_computation := vm_compute; reflexivity.

(** A scan whose polls bring a position but no map waits for ever. *)
Example scan_without_map_blocks :
  @wait_ready w_spec [[Deliver (GpsMsg fix1)]; []] (built w_spec params true)
  = None.
Proof. by_computation. Qed.

Lemma wait_ready_blocks_witness :
  let st := built w_spec params true in
  let polls := [[@Deliver w_spec (GpsMsg fix1)]; []] in
  forallb (forallb is_feed) polls = true
  /\ (wait_ready polls st = None
      <-> (gps_ready st || existsb is_fix_delivery (List.concat polls))
          && (map_ready st || existsb is_map_delivery (List.concat polls))
          = false).
Proof.
  intros st polls.
  assert (Hfeeds : forallb (forallb is_feed) polls = true) by reflexivity.
  split; [exact Hfeeds|].
  exact (proj2 (wait_ready_blocks (ext := w_spec) polls st) Hfeeds).
Defined.

(** A scan dispatched while another waits, and whose own polls bring no
    map, keeps both of them waiting for ever, whatever comes later. *)
Example waiting_scan_blocks_the_first :
  @wait_ready w_spec
    [[@Scan w_spec 10 [[Deliver (GpsMsg fix1)]]];
     [Deliver (GpsMsg fix1); Deliver (@MapMsg w_spec 7)]]
    (built w_spec params true)
  = None.
Proof. by_computation. Qed.

Lemma spin_ready_never_blocks_witness :
  let st := fst (ran w_spec (feeds_only w_spec 7) (built w_spec params true)) in
  let ds := scans_with_polls w_spec 8 9 10 in
  gps_ready st = true /\ map_ready st = true
  /\ spin ds st = spin (map without_polls ds) st
  /\ exists st' tr, spin ds st = Some (st', tr)
                    /\ gps_ready st' = true /\ map_ready st' = true.
Proof.
  intros st ds.
  assert (Hg : gps_ready st = true) by by_computation.
  assert (Hm : map_ready st = true) by by_computation.
  split; [exact Hg|]. split; [exact Hm|].
  exact (spin_ready_never_blocks (ext := w_spec) ds st Hg Hm).
Defined.

Lemma configuration_kept_witness :
  let st := built w_spec params true in
  let ds := late_fix w_spec 7 9 10 in
  let st' := fst (ran w_spec ds st) in
  let tr := snd (ran w_spec ds st) in
  spin ds st = Some (st', tr)
  /\ car2Lidar st' = car2Lidar st
  /\ mapLeafSize st' = mapLeafSize st /\ scanLeafSize st' = scanLeafSize st
  /\ outfile_is_open st' = outfile_is_open st
  /\ (gps_ready st = true -> gps_ready st' = true)
  /\ (map_ready st = true -> map_ready st' = true)
  /\ (initialied st = true -> initialied st' = true).
Proof.
  intros st ds st' tr.
  assert (Hs : spin ds st = Some (st', tr)) by by_computation.
  split; [exact Hs|].
  exact (configuration_kept (ext := w_spec) ds st st' tr Hs).
Defined.

Lemma outfile_append_only_witness :
  let st := fst (ran w_spec (two_frames w_spec 7 9 10) (built w_spec params true)) in
  let ds := fixes_between w_spec 8 9 10 in
  let st' := fst (ran w_spec ds st) in
  let tr := snd (ran w_spec ds st) in
  spin ds st = Some (st', tr)
  /\ exists rows,
      outfile st' = outfile st ++ rows
      /\ forallb is_row rows = true
      /\ List.length rows
         = (if outfile_is_open st
            then List.length (scans_from st ds) else 0%nat).
Proof.
  intros st ds st' tr.
  assert (Hs : spin ds st = Some (st', tr)) by by_computation.
  split; [exact Hs|].
  exact (outfile_append_only (ext := w_spec) ds st st' tr Hs).
Defined.

Lemma publications_per_scan_witness :
  let st := built w_stamp params true in
  let ds := scans_waiting w_stamp 7 9 10 11 in
  let L := fst (ran w_stamp ds st) in
  let tr := snd (ran w_stamp ds st) in
  let results := map (fun c => fst (track_out c)) (track_calls tr) in
  spin ds st = Some (L, tr)
  /\ published_points tr = combine results (scans_from st ds)
  /\ sent_transforms tr = results
  /\ published_poses tr = results
  /\ List.length results = List.length (scans_from st ds).
Proof.
  intros st ds L tr results.
  assert (Hs : spin ds st = Some (L, tr)) by by_computation.
  split; [exact Hs|].
  exact (publications_per_scan (ext := w_stamp) ds st L tr Hs).
Defined.

(** In that run the clouds published are those of the scans 10, 9, 11, in
    this order, while the scans arrived in the order 9, 10, 11. *)
Example publications_follow_processing :
  let st := built w_stamp params true in
  let ds := scans_waiting w_stamp 7 9 10 11 in
  map snd (published_points (snd (ran w_stamp ds st))) = [10; 9; 11]
  /\ arrivals_from st ds = [9; 10; 11].
Proof. split; by_computation. Qed.

Lemma waiting_scans_latest_first_witness :
  let st := built w_stamp params true in
  let polls :=
    [[@Deliver w_stamp (GpsMsg fix1); @Deliver w_stamp (@MapMsg w_stamp 7)]] in
  let ds := [@Scan w_stamp 9 (@pile w_stamp [10; 11] polls)] in
  let L := fst (ran w_stamp ds st) in
  let tr := snd (ran w_stamp ds st) in
  gps_ready st && map_ready st = false
  /\ forallb (forallb is_feed) polls = true
  /\ spin ds st = Some (L, tr)
  /\ arrivals_from st ds = [9; 10; 11]
  /\ map snd (published_points tr) = rev [9; 10; 11].
Proof.
  intros st polls ds L tr.
  assert (Hr : gps_ready st && map_ready st = false) by by_computation.
  assert (Hfeeds : forallb (forallb is_feed) polls = true) by reflexivity.
  assert (Hs : spin ds st = Some (L, tr)) by by_computation.
  split; [exact Hr|]. split; [exact Hfeeds|]. split; [exact Hs|].
  exact (@waiting_scans_latest_first w_stamp 9 [10; 11] polls st L tr
           Hr Hfeeds Hs).
Defined.

Lemma bag_finished_logged_once_witness :
  let L0 := built w_spec params true in
  let ds := burst w_spec 7 9 400 in
  let L := fst (ran w_spec ds L0) in
  let tr := snd (ran w_spec ds L0) in
  Localizer_new params true = (said_at_start w_spec params true, Returns L0)
  /\ spin ds L0 = Some (L, tr)
  /\ Z.of_nat (List.length (scans ds)) <= INT_MAX
  /\ filter is_finished tr
     = if 396 <=? Z.of_nat (List.length (scans ds))
       then [ROS_LOG INFO ITRI_bag_finished] else [].
Proof.
  intros L0 ds L tr.
  assert (Hnew : Localizer_new params true
                 = (said_at_start w_spec params true, Returns L0))
    by by_computation.
  assert (Hspin : spin ds L0 = Some (L, tr)) by by_computation.
  assert (Hn : Z.of_nat (List.length (scans ds)) <= INT_MAX)
    by (vm_compute; discriminate).
  split; [exact Hnew|]. split; [exact Hspin|]. split; [exact Hn|].
  exact (bag_finished_logged_once (ext := w_spec) _ _ _ _ _ _ _ Hnew Hspin Hn).
Defined.

(** In a run of 400 scans the line is there, once. *)
Example bag_finished_in_400_scans :
  filter is_finished
         (snd (ran w_spec (burst w_spec 7 9 400) (built w_spec params true)))
  = [ROS_LOG INFO ITRI_bag_finished].
Proof. by_computation. Qed.

Lemma get_cnt_counts_scans_witness :
  let L0 := built w_spec params false in
  let ds := two_frames w_spec 7 9 10 in
  let L := fst (ran w_spec ds L0) in
  let tr := snd (ran w_spec ds L0) in
  Localizer_new params false = (said_at_start w_spec params false, Returns L0)
  /\ spin ds L0 = Some (L, tr)
  /\ Z.of_nat (List.length (scans ds)) <= INT_MAX
  /\ get_cnt L = Z.of_nat (List.length (scans ds)).
Proof.
  intros L0 ds L tr.
  assert (Hnew : Localizer_new params false
                 = (said_at_start w_spec params false, Returns L0))
    by by_computation.
  assert (Hspin : spin ds L0 = Some (L, tr)) by by_computation.
  assert (Hn : Z.of_nat (List.length (scans ds)) <= INT_MAX)
    by (vm_compute; discriminate).
  split; [exact Hnew|]. split; [exact Hspin|]. split; [exact Hn|].
  exact (get_cnt_counts_scans (ext := w_spec) _ _ _ _ _ _ _ Hnew Hspin Hn).
Defined.

Lemma registration_after_map_and_fix_witness :
  let L0 := built w_spec params true in
  let ds := map_then_fix w_spec 7 9 in
  let L := fst (ran w_spec ds L0) in
  let tr := snd (ran w_spec ds L0) in
  Localizer_new params true = (said_at_start w_spec params true, Returns L0)
  /\ spin ds L0 = Some (L, tr)
  /\ forall pre e post,
      tr = pre ++ e :: post -> is_registration e = true ->
      latest_map (latest_of pre) <> None /\ latest_fix (latest_of pre) <> None.
Proof.
  intros L0 ds L tr.
  assert (Hnew : Localizer_new params true
                 = (said_at_start w_spec params true, Returns L0))
    by by_computation.
  assert (Hspin : spin ds L0 = Some (L, tr)) by by_computation.
  split; [exact Hnew|]. split; [exact Hspin|].
  exact (registration_after_map_and_fix (ext := w_spec)
           _ _ _ _ _ _ _ Hnew Hspin).
Defined.

Lemma warnings_while_waiting_witness :
  let L0 := built w_spec params true in
  let ds := map_then_fix w_spec 7 9 in
  let L := fst (ran w_spec ds L0) in
  let tr := snd (ran w_spec ds L0) in
  Localizer_new params true = (said_at_start w_spec params true, Returns L0)
  /\ spin ds L0 = Some (L, tr)
  /\ (forall pre l post,
         tr = pre ++ ROS_LOG WARN l :: post ->
         registrations pre = []
         /\ ((l = waiting_for_map_data
              /\ latest_fix (latest_of pre) <> None
              /\ latest_map (latest_of pre) = None)
             \/ (l = waiting_for_gps_data
                 /\ latest_map (latest_of pre) <> None
                 /\ latest_fix (latest_of pre) = None)))
  /\ (forall l, ~ In (ROS_LOG ERROR l) tr).
Proof.
  intros L0 ds L tr.
  assert (Hnew : Localizer_new params true
                 = (said_at_start w_spec params true, Returns L0))
    by by_computation.
  assert (Hspin : spin ds L0 = Some (L, tr)) by by_computation.
  split; [exact Hnew|]. split; [exact Hspin|].
  exact (warnings_while_waiting (ext := w_spec) _ _ _ _ _ _ _ Hnew Hspin).
Defined.

(** The scan of [map_then_fix] waits four times and warns twice, both
    times about the position: the first wait, with nothing received, is
    silent. *)
Example two_warnings_in_four_waits :
  filter (fun e => match e with ROS_LOG WARN _ => true | _ => false end)
         (snd (ran w_spec (map_then_fix w_spec 7 9) (built w_spec params true)))
  = [ROS_LOG WARN waiting_for_gps_data; ROS_LOG WARN waiting_for_gps_data].
Proof. by_computation. Qed.

Lemma fix_published_before_tracking_witness :
  let L0 := built w_spec params true in
  let ds := late_fix w_spec 7 9 10 in
  let L := fst (ran w_spec ds L0) in
  let tr := snd (ran w_spec ds L0) in
  Localizer_new params true = (said_at_start w_spec params true, Returns L0)
  /\ spin ds L0 = Some (L, tr)
  /\ forall pre e post p,
      tr = pre ++ e :: post ->
      e = PublishGpsPose p \/ e = SendGpsTransform p ->
      registrations pre = [] /\ latest_fix (latest_of pre) = Some p.
Proof.
  intros L0 ds L tr.
  assert (Hnew : Localizer_new params true
                 = (said_at_start w_spec params true, Returns L0))
    by by_computation.
  assert (Hspin : spin ds L0 = Some (L, tr)) by by_computation.
  split; [exact Hnew|]. split; [exact Hspin|].
  exact (fix_published_before_tracking (ext := w_spec)
           _ _ _ _ _ _ _ Hnew Hspin).
Defined.

Lemma fixes_after_start_are_ignored_witness :
  let st := fst (ran w_spec (two_frames w_spec 7 9 10) (built w_spec params true)) in
  let ds := fixes_between w_spec 8 9 10 in
  let st' := fst (ran w_spec ds st) in
  let tr := snd (ran w_spec ds st) in
  initialied st = true /\ gps_ready st = true /\ map_ready st = true
  /\ spin ds st = Some (st', tr)
  /\ exists st'',
      spin (drop_fixes ds) st
      = Some (st'', filter (fun e => negb (is_gps_callback e)) tr)
      /\ alike st' st''.
Proof.
  intros st ds st' tr.
  assert (Hi : initialied st = true) by by_computation.
  assert (Hg : gps_ready st = true) by by_computation.
  assert (Hm : map_ready st = true) by by_computation.
  assert (Hs : spin ds st = Some (st', tr)) by by_computation.
  split; [exact Hi|]. split; [exact Hg|]. split; [exact Hm|].
  split; [exact Hs|].
  exact (fixes_after_start_are_ignored (ext := w_spec) ds st st' tr Hi Hg Hm Hs).
Defined.

End MoreRuns.
